(** * Spotify playlist analyser: a shallow embedding of [app.py]

    The script is a linear pipeline: log in, list the playlists, let the
    user pick one, page through its tracks, look the artists' genres up in
    batches, join them back onto the tracks and show a few summary numbers.

    Conventions of the embedding.
    - A payload received from the service is a Python dict of a known shape.
      Every key the script reads is a [field]: it can be missing from the
      dict, be present with the value [None], or be present with a value.
      The two forms of [dict.get] are then total functions on [field].
    - Raising is explicit: a computation returns [Ok v] or [Raise e]; the
      one [while] loop runs on fuel and [OutOfFuel] marks its exhaustion.
    - The Streamlit calls and the calls to the Spotify client that matter
      are recorded, in order, in a log of [event]s (a writer monad [io]).
    - [float] is abstracted by exact rationals [Q]; [NaN] is [None].
      Rounding and formatting break a decimal tie to the even digit; a
      binary double near such a tie may fall on either side of it.
    - [str] is [string]; its order is the byte-wise lexicographic one,
      which on UTF-8 text is the code point order Python uses. *)

From stdpp Require Import gmap strings list sorting pretty.
From Stdlib Require Import QArith Qround Qabs Ascii.

Close Scope Q_scope.
Open Scope Z_scope.

(** ** Python values the script relies on *)

Module Py.

(** The exception classes the script can meet.  [StopException] is what
    [st.stop()] raises; it derives from [BaseException], so an
    [except Exception] clause does not catch it. *)
Inductive exn_class :=
| AttributeError
| TypeError
| ValueError
| IndexError
| SpotifyException (http_status : Z)
| OtherException
| StopException.

(** An exception: its class and [str(e)]. *)
Record exn := Exn { exn_cls : exn_class; exn_str : string }.

(** What running a piece of the script gives: a value, a raised
    exception, or [OutOfFuel] when the bound put on a [while] loop by the
    embedding was too small (no Python behaviour corresponds to it). *)
Inductive result (A : Type) :=
| Ok (a : A)
| Raise (e : exn)
| OutOfFuel.
Global Arguments Ok {A} a.
Global Arguments Raise {A} e.
Global Arguments OutOfFuel {A}.

Global Instance exn_class_eq_dec : EqDecision exn_class.
Proof. solve_decision. Defined.
Global Instance exn_eq_dec : EqDecision exn.
Proof. solve_decision. Defined.

Definition is_Ok {A} (r : result A) : bool :=
  match r with Ok _ => true | _ => false end.

(** [isinstance(e, Exception)] *)
Definition is_Exception (e : exn) : bool :=
  match exn_cls e with StopException => false | _ => true end.

(** [isinstance(e, SpotifyException)] *)
Definition is_SpotifyException (e : exn) : bool :=
  match exn_cls e with SpotifyException _ => true | _ => false end.

(** [e.http_status] of a [SpotifyException] *)
Definition http_status (e : exn) : Z :=
  match exn_cls e with SpotifyException s => s | _ => 0 end.

(** A key of a payload dict. *)
Inductive field (A : Type) :=
| Missing
| Null
| Val (a : A).
Global Arguments Missing {A}.
Global Arguments Null {A}.
Global Arguments Val {A} a.

(** [d.get(k)]: [None] when the key is missing, else the stored value. *)
Definition get {A} (f : field A) : option A :=
  match f with Val a => Some a | _ => None end.

(** [d.get(k, default)]: the default only replaces a missing key; a key
    stored with [None] comes back as [None]. *)
Definition get_or {A} (default : A) (f : field A) : option A :=
  match f with Missing => Some default | Null => None | Val a => Some a end.

Definition is_Missing {A} (f : field A) : bool :=
  match f with Missing => true | _ => false end.

(** Truth value testing ([if x], [not x], [x or y]). *)
Class Truthy (A : Type) := truthy : A → bool.
Global Hint Mode Truthy ! : typeclass_instances.

Global Instance truthy_string : Truthy string :=
  λ s, match s with EmptyString => false | _ => true end.
Global Instance truthy_list {A} : Truthy (list A) :=
  λ l, match l with [] => false | _ => true end.
Global Instance truthy_Z : Truthy Z := λ z, negb (z =? 0).
Global Instance truthy_option {A} `{Truthy A} : Truthy (option A) :=
  λ o, match o with Some a => truthy a | None => false end.

(** [x or default] where [x] may be [None] *)
Definition or_else {A} `{Truthy A} (x : option A) (default : A) : A :=
  match x with
  | Some a => if truthy a then a else default
  | None => default
  end.

(** [str(x)] inside an f-string, for the values the script formats. *)
Class Str (A : Type) := str : A → string.
Global Hint Mode Str ! : typeclass_instances.
Global Instance str_string : Str string := λ s, s.
Global Instance str_Z : Str Z := λ z, pretty z.
Global Instance str_nat : Str nat := λ n, pretty n.
Global Instance str_option {A} `{Str A} : Str (option A) :=
  λ o, match o with Some a => str a | None => "None" end.

(** [sep.join(l)] *)
Definition join (sep : string) (l : list string) : string :=
  String.concat sep l.

(** [range(0, stop, step)] for a positive step *)
Definition range0 (stop step : nat) : list nat :=
  (λ k, k * step)%nat <$> seq 0 ((stop + step - 1) / step)%nat.

(** [l[start : start + n]] *)
Definition slice {A} (l : list A) (start n : nat) : list A :=
  take n (drop start l).

(** [l.index(x)]: the first position of [x], [ValueError] if there is
    none.  Only the class of that exception is modelled: the text of its
    message depends on the version of the interpreter. *)
Fixpoint index `{EqDecision A} (l : list A) (x : A) : result nat :=
  match l with
  | [] => Raise (Exn ValueError "x is not in list")
  | y :: l' =>
      if decide (y = x) then Ok 0%nat
      else match index l' x with
           | Ok i => Ok (S i)
           | Raise e => Raise e
           | OutOfFuel => OutOfFuel
           end
  end.

(** The order of [str]: [a <= b]. *)
Definition str_le (a b : string) : Prop := String.leb a b = true.
Definition str_lt (a b : string) : Prop := String.ltb a b = true.

Global Instance str_le_dec a b : Decision (str_le a b).
Proof. unfold str_le. apply _. Defined.
Global Instance str_lt_dec a b : Decision (str_lt a b).
Proof. unfold str_lt. apply _. Defined.

(** [sorted(s)] for a set of strings.  Python sorts the elements in
    whatever order the set iterates; for a total order on distinct
    elements the outcome does not depend on it. *)
Definition sorted (s : gset string) : list string :=
  merge_sort str_le (elements s).

End Py.
Export Py.

(** ** Payloads of the web API, as the script reads them *)

Module Payload.

(** An element of [track["artists"]]. *)
Record artist_ref := ArtistRef {
  artist_id : field string;
  artist_name : field string }.

Record album := Album { album_name : field string }.

(** [item["track"]].  [track_more] says whether the dict holds keys other
    than the six the script reads (a real track object has many); it only
    matters for the truth value of the dict. *)
Record track := TrackObj {
  track_id : field string;
  track_name : field string;
  track_artists : field (list artist_ref);
  track_album : field album;
  track_duration_ms : field Z;
  track_popularity : field Z;
  track_more : bool }.

Record item := Item { item_track : field track }.

(** A page of playlist items; [page_next] is the cursor of the next one. *)
Record page := Page {
  page_items : field (list item);
  page_next : field string;
  page_more : bool }.

Record tracks_ref := TracksRef { tracks_total : field Z }.

(** An element of the playlist listing. *)
Record playlist := Playlist {
  playlist_id : field string;
  playlist_name : field string;
  playlist_tracks_ref : field tracks_ref }.

Record playlists_page := PlaylistsPage {
  playlists_items : field (list playlist) }.

(** An element of the answer to an artist lookup. *)
Record artist := Artist {
  full_artist_id : field string;
  full_artist_genres : field (list string);
  full_artist_more : bool }.

(** The answer to an artist lookup; the service puts [None] where it does
    not know an id. *)
Record artists_response := ArtistsResponse {
  response_artists : field (list (option artist)) }.

Record user := User { user_display_name : field string }.

(** A dict is true when it is not empty. *)
Global Instance truthy_track : Truthy track := λ t,
  negb (is_Missing (track_id t) && is_Missing (track_name t)
        && is_Missing (track_artists t) && is_Missing (track_album t)
        && is_Missing (track_duration_ms t) && is_Missing (track_popularity t))
  || track_more t.

Global Instance truthy_page : Truthy page := λ p,
  negb (is_Missing (page_items p) && is_Missing (page_next p)) || page_more p.

Global Instance truthy_artist : Truthy artist := λ a,
  negb (is_Missing (full_artist_id a) && is_Missing (full_artist_genres a))
  || full_artist_more a.

End Payload.
Export Payload.

(** ** The Spotify client *)

(** The methods of [spotipy.Spotify] the script calls.  A call returns the
    decoded answer (which may be [None]) or raises. *)
Record Spotify := {
  current_user : result (option user);
  current_user_playlists : nat → result (option playlists_page);
  playlist_tracks : option string → nat → result (option page);
  next : page → result (option page);
  artists : list string → result (option artists_response) }.

(** ** Records built by the script *)

(** The dict appended by [fetch_playlists]. *)
Record PlaylistSummary := {
  ps_id : option string;
  ps_name : option string;
  ps_tracks_total : option Z }.

(** The dict appended by [fetch_playlist_tracks]. *)
Record Track := {
  t_id : option string;
  t_name : option string;
  t_artist : string;
  t_artist_ids : list string;
  t_album : option string;
  t_duration_ms : option Z;
  t_popularity : option Z }.

(** A row of the data frame returned by [add_genres_if_available]: the
    track's columns, [duration_min] and [genre].  The column [artist_ids]
    is dropped on the main path only, hence the option. *)
Record EnrichedTrack := {
  e_id : option string;
  e_name : option string;
  e_artist : string;
  e_artist_ids : option (list string);
  e_album : option string;
  e_duration_ms : option Z;
  e_popularity : option Z;
  e_duration_min : option Q;
  e_genre : option string }.

(** The six columns shown in the table:
    [df[["name", "artist", "genre", "album", "duration_min", "popularity"]]]. *)
Record TableRow := {
  c_name : option string;
  c_artist : string;
  c_genre : option string;
  c_album : option string;
  c_duration_min : option Q;
  c_popularity : option Z }.

Definition table_row (row : EnrichedTrack) : TableRow :=
  {| c_name := e_name row;
     c_artist := e_artist row;
     c_genre := e_genre row;
     c_album := e_album row;
     c_duration_min := e_duration_min row;
     c_popularity := e_popularity row |}.

(** ** Effects *)

(** What the script does to the outside, in order. *)
Inductive event :=
| ApiCurrentUser
| ApiCurrentUserPlaylists (limit : nat)
| ApiPlaylistTracks (playlist_id : option string) (limit : nat)
| ApiNext (cursor : field string)
| ApiArtists (batch : list string)
| StTitle (body : string)
| StError (body : string)
| StWarning (body : string)
| StSuccess (body : string)
| StInfo (body : string)
| StWrite (body : string)
| StSubheader (body : string)
| StSelectbox (label : string) (options : list string)
| StMetric (label value : string)
| StDataframe (rows : list TableRow)
| StBarChart (series : list (option string * option Z))
| StBarChartCounts (series : list (string * nat)).

Definition io (A : Type) : Type := result A * list event.

Definition ret {A} (a : A) : io A := (Ok a, []).

Definition bind {A B} (m : io A) (k : A → io B) : io B :=
  match m with
  | (Ok a, log) => let '(r, log') := k a in (r, log ++ log')
  | (Raise e, log) => (Raise e, log)
  | (OutOfFuel, log) => (OutOfFuel, log)
  end.

Declare Scope io_scope.
Delimit Scope io_scope with io.
Notation "x <- m ;; k" := (bind m (λ x, k))
  (at level 100, m at next level, right associativity) : io_scope.
Notation "m ;; k" := (bind m (λ _, k))
  (at level 100, right associativity) : io_scope.
Open Scope io_scope.

Definition emit (e : event) : io unit := (Ok tt, [e]).
Definition raise {A} (e : exn) : io A := (Raise e, []).
Definition lift {A} (r : result A) : io A := (r, []).

(** A call to the client: logged, then its outcome. *)
Definition call {A} (e : event) (r : result A) : io A := (r, [e]).

(** [try: m  except C as e: handler(e)] where [catches] tells the
    instances of [C]. *)
Definition try_except {A} (m : io A) (catches : exn → bool)
    (handler : exn → io A) : io A :=
  match m with
  | (Raise e, log) =>
      if catches e then let '(r, log') := handler e in (r, log ++ log')
      else (Raise e, log)
  | _ => m
  end.

(** [st.stop()] *)
Definition st_stop {A} : io A := raise (Exn StopException "").

(** [None.get(...)] *)
Definition none_has_no_get : exn :=
  Exn AttributeError "'NoneType' object has no attribute 'get'".

(** [for x in None] *)
Definition none_not_iterable : exn :=
  Exn TypeError "'NoneType' object is not iterable".

(** [d.get(k, default)] followed by a [for] loop or a further [.get] on
    the outcome: the value, or the exception when it is [None]. *)
Definition iter_of {A} (o : option (list A)) : result (list A) :=
  match o with Some l => Ok l | None => Raise none_not_iterable end.

(** Code that cannot log anything lives in [result]. *)
Global Instance result_ret : MRet result := λ A a, Ok a.
Global Instance result_bind : MBind result := λ A B k r,
  match r with
  | Ok a => k a
  | Raise e => Raise e
  | OutOfFuel => OutOfFuel
  end.

(** [d.get(k, default).get(...)]: the dict, or the exception when the
    first [get] gave [None]. *)
Definition obj_of {A} (o : option A) : result A :=
  match o with Some d => Ok d | None => Raise none_has_no_get end.

(** [for x in l: body], the body updating one local variable. *)
Fixpoint for_in {A S} (body : A → S → result S) (l : list A) (s : S)
    : result S :=
  match l with
  | [] => Ok s
  | x :: l' => s' ← body x s; for_in body l' s'
  end.

Fixpoint for_in_io {A S} (body : A → S → io S) (l : list A) (s : S)
    : io S :=
  match l with
  | [] => ret s
  | x :: l' => s' <- body x s;; for_in_io body l' s'
  end.

(** [x for ... if x]: keeps a value that is true. *)
Definition if_truthy {A} `{Truthy A} (x : option A) : option A :=
  match x with
  | Some a => if truthy a then Some a else None
  | None => None
  end.

(** ** Playlist Lister: [fetch_playlists] *)

Definition playlist_summary (item : playlist) : result PlaylistSummary :=
  tracks ← obj_of (get_or (TracksRef Missing) (playlist_tracks_ref item));
  Ok {| ps_id := get (playlist_id item);
        ps_name := get (playlist_name item);
        ps_tracks_total := get_or 0 (tracks_total tracks) |}.

Definition fetch_playlists (sp : Spotify) : io (list PlaylistSummary) :=
  results <- call (ApiCurrentUserPlaylists 50) (current_user_playlists sp 50);;
  lift (results ← obj_of results;
        items ← iter_of (get_or [] (playlists_items results));
        for_in (λ item playlists,
                  summary ← playlist_summary item;
                  Ok (playlists ++ [summary]))
               items []).

(** ** Track Fetcher: [fetch_playlist_tracks] *)

Definition track_row (track : Payload.track) : result Track :=
  let artists := or_else (get_or [] (track_artists track)) [] in
  let artist_names := omap (λ a, if_truthy (get (artist_name a))) artists in
  let artist_ids := omap (λ a, if_truthy (get (artist_id a))) artists in
  album ← obj_of (get_or (Album Missing) (track_album track));
  Ok {| t_id := get (track_id track);
        t_name := get (track_name track);
        t_artist := join ", " artist_names;
        t_artist_ids := artist_ids;
        t_album := get (album_name album);
        t_duration_ms := get (track_duration_ms track);
        t_popularity := get (track_popularity track) |}.

(** The body of the loop over the items of one page. *)
Definition item_body (item : Payload.item) (tracks : list Track)
    : result (list Track) :=
  match get (item_track item) with
  | Some track =>
      if truthy track
      then row ← track_row track; Ok (tracks ++ [row])
      else Ok tracks
  | None => Ok tracks
  end.

(** The [while results:] loop; [fuel] bounds the number of pages. *)
Fixpoint pages_loop (fuel : nat) (sp : Spotify) (results : option page)
    (tracks : list Track) : io (list Track) :=
  match results with
  | None => ret tracks
  | Some results =>
      if negb (truthy results) then ret tracks
      else match fuel with
           | O => (OutOfFuel, [])
           | S fuel' =>
               tracks <- lift (items ← iter_of (get_or [] (page_items results));
                               for_in item_body items tracks);;
               if truthy (get (page_next results))
               then results' <- call (ApiNext (page_next results))
                                     (next sp results);;
                    pages_loop fuel' sp results' tracks
               else ret tracks
           end
  end.

Definition fetch_playlist_tracks (fuel : nat) (sp : Spotify)
    (playlist_id : option string) : io (list Track) :=
  results <- call (ApiPlaylistTracks playlist_id 100)
                  (playlist_tracks sp playlist_id 100);;
  pages_loop fuel sp results [].

(** ** Numbers *)

(** Rounding to the nearest integer, ties to the even one. *)
Definition round_half_even (x : Q) : Z :=
  let f := Qfloor x in
  match Qcompare (x - inject_Z f) (1 # 2) with
  | Lt => f
  | Gt => f + 1
  | Eq => if Z.even f then f else f + 1
  end.

(** [Series.round(decimals)] on one value *)
Definition round_to (decimals : nat) (x : Q) : Q :=
  let scale := inject_Z (10 ^ Z.of_nat decimals) in
  (inject_Z (round_half_even (x * scale)) / scale)%Q.

Fixpoint zeros (n : nat) : string :=
  match n with O => "" | S n' => "0" +:+ zeros n' end.

(** [f"{x:.<decimals>f}"] *)
Definition format_fixed (decimals : nat) (x : Q) : string :=
  let scale := 10 ^ Z.of_nat decimals in
  let n := round_half_even (Qabs x * inject_Z scale) in
  let frac := pretty (n `mod` scale) in
  (if Qnum x <? 0 then "-" else "")
  +:+ pretty (n `div` scale)
  +:+ match decimals with
      | O => ""
      | _ => "." +:+ zeros (decimals - String.length frac) +:+ frac
      end.


(** [Series.sum()]: missing values are skipped, and the sum of no value
    at all is 0, so the outcome is never [NaN]. *)
Definition sum_skipna (column : list (option Q)) : option Q :=
  Some (foldl Qplus 0%Q (omap id column)).

(** [Series.dropna().mean()]: [NaN] when nothing is left. *)
Definition mean_dropna (column : list (option Q)) : option Q :=
  match omap id column with
  | [] => None
  | values => Some (foldl Qplus 0%Q values / inject_Z (Z.of_nat (length values)))%Q
  end.

(** ** Genre Enricher: [add_genres_if_available] *)

Global Instance truthy_gset : Truthy (gset string) := λ s,
  bool_decide (s ≠ ∅).

Definition batch_size : nat := 50.

(** [(df["duration_ms"] / 60000).round(2)] on one row *)
Definition duration_min (duration_ms : option Z) : option Q :=
  (λ ms, round_to 2 (inject_Z ms / 60000)%Q) <$> duration_ms.

(** A row of [pd.DataFrame(tracks)] with the column [duration_min]. *)
Definition frame_row (t : Track) : EnrichedTrack :=
  {| e_id := t_id t;
     e_name := t_name t;
     e_artist := t_artist t;
     e_artist_ids := Some (t_artist_ids t);
     e_album := t_album t;
     e_duration_ms := t_duration_ms t;
     e_popularity := t_popularity t;
     e_duration_min := duration_min (t_duration_ms t);
     e_genre := None |}.

(** [{aid for sub in artist_id_lists for aid in sub if aid}] *)
Definition all_artist_ids (tracks : list Track) : gset string :=
  list_to_set (filter (λ aid, truthy aid) (concat (t_artist_ids <$> tracks))).

(** The body of the loop over the artists of one answer. *)
Definition artist_body (artist : option Payload.artist)
    (genres_map : gmap string (list string)) : gmap string (list string) :=
  match artist with
  | Some artist =>
      if truthy artist
      then match get (full_artist_id artist) with
           | Some aid =>
               if truthy aid
               then <[aid := or_else (get_or [] (full_artist_genres artist)) []]>
                      genres_map
               else genres_map
           | None => genres_map
           end
      else genres_map
  | None => genres_map
  end.

Definition refused_warning (e : exn) : string :=
  "Spotify refused artist genre request for a batch of artists "
  +:+ "(HTTP " +:+ str (http_status e) +:+ "). Skipping those artists.".

Definition join_genres (genres_map : gmap string (list string))
    (artist_ids_row : list string) : option string :=
  if negb (truthy artist_ids_row) then None
  else
    let collected :=
      foldl (λ collected aid, collected ++ default [] (genres_map !! aid))
            [] artist_ids_row in
    if negb (truthy collected) then None
    else
      let unique_genres := sorted (list_to_set collected) in
      Some (join ", " unique_genres).

(** [df["genre"] = df["artist_ids"].apply(join_genres)] and the drop of
    the column [artist_ids], on one row. *)
Definition genre_row (genres_map : gmap string (list string))
    (row : EnrichedTrack) : EnrichedTrack :=
  {| e_id := e_id row;
     e_name := e_name row;
     e_artist := e_artist row;
     e_artist_ids := None;
     e_album := e_album row;
     e_duration_ms := e_duration_ms row;
     e_popularity := e_popularity row;
     e_duration_min := e_duration_min row;
     e_genre := join_genres genres_map (default [] (e_artist_ids row)) |}.

Section enricher.

(** The client, and the order in which Python iterates a set of strings
    ([list(all_artist_ids)]): it depends on the hashes of the run. *)
Variable sp : Spotify.
Variable set_iter : gset string → list string.

(** The body of the loop over the batches. *)
Definition batch_body (artist_ids_list : list string) (start : nat)
    (genres_map : gmap string (list string))
    : io (gmap string (list string)) :=
  let batch := slice artist_ids_list start batch_size in
  answer <- try_except
              (response <- call (ApiArtists batch) (artists sp batch);;
               response <- lift (obj_of response);;
               ret (Some (get_or [] (response_artists response))))
              is_SpotifyException
              (λ e, emit (StWarning (refused_warning e));; ret None);;
  match answer with
  | None => ret genres_map
  | Some artists =>
      artists <- lift (iter_of artists);;
      ret (foldl (flip artist_body) genres_map artists)
  end.

(** The loop over the batches, from an empty [genres_map]. *)
Definition lookup_genres (artist_ids_list : list string)
    : io (gmap string (list string)) :=
  for_in_io (batch_body artist_ids_list)
            (range0 (length artist_ids_list) batch_size) ∅.

Definition add_genres_if_available (tracks : list Track)
    : io (list EnrichedTrack) :=
  let df := frame_row <$> tracks in
  (* without rows the frame has no column [artist_ids]; with rows the
     column holds lists, none of which is NA *)
  if negb (truthy tracks) then ret df
  else
    let all_artist_ids := all_artist_ids tracks in
    if negb (truthy all_artist_ids) then ret df
    else
      let artist_ids_list := set_iter all_artist_ids in
      genres_map <- lookup_genres artist_ids_list;;
      ret (genre_row genres_map <$> df).

End enricher.

(** ** Aggregator: the summary numbers of [main] *)

(** [df["duration_min"].sum()] *)
Definition total_minutes (df : list EnrichedTrack) : option Q :=
  sum_skipna (e_duration_min <$> df).

(** [df["popularity"].dropna().mean()] *)
Definition avg_popularity (df : list EnrichedTrack) : option Q :=
  mean_dropna ((λ row, inject_Z <$> e_popularity row) <$> df).

(** The value shown under "Total length (hours)":
    [f"{(total_minutes / 60):.2f}" if pd.notna(total_minutes) else "N/A"] *)
Definition total_length_metric (df : list EnrichedTrack) : string :=
  match total_minutes df with
  | Some total_minutes => format_fixed 2 (total_minutes / 60)%Q
  | None => "N/A"
  end.

(** The value shown under "Average popularity". *)
Definition avg_popularity_metric (df : list EnrichedTrack) : string :=
  match avg_popularity df with
  | Some avg_popularity => format_fixed 1 avg_popularity
  | None => "N/A"
  end.

(** ** The charts drawn at the end of [main] *)

(** [s.split(", ")]: the pieces between the occurrences of ", ", found
    from left to right; [cur] is the piece being read. *)
Fixpoint split_from (cur : string) (s : string) : list string :=
  match s with
  | EmptyString => [cur]
  | String c rest =>
      match rest with
      | String d rest' =>
          if (c =? ",")%char && (d =? " ")%char
          then cur :: split_from "" rest'
          else split_from (cur +:+ String c "") rest
      | EmptyString => split_from (cur +:+ String c "") rest
      end
  end.

Definition split_comma (s : string) : list string := split_from "" s.

(** [column.str.split(", ", expand=True).stack()]: the pieces of all the
    rows, row after row. *)
Definition stacked (column : list string) : list string :=
  concat (split_comma <$> column).

(** The number of times a value occurs. *)
Definition occurrences (x : string) (l : list string) : nat :=
  length (filter (x =.) l).

(** The distinct values with their counts, before sorting. *)
Definition tally (l : list string) : list (string * nat) :=
  (λ x, (x, occurrences x l)) <$> remove_dups l.

(** A bar chart of counts, or an information message. *)
Inductive chart :=
| BarChart (series : list (string * nat))
| StInfoBox (body : string).

Section charts.

(** [Series.sort_values(ascending=False)] as [value_counts] uses it: the
    order it leaves between equal counts is not fixed by pandas. *)
Variable sort_values : list (string * nat) → list (string * nat).

(** [column.value_counts().head(10)] after the split. *)
Definition top_counts (column : list string) : list (string * nat) :=
  take 10 (sort_values (tally (stacked column))).

(** [top_artists] *)
Definition top_artists (df : list EnrichedTrack) : list (string * nat) :=
  top_counts (e_artist <$> df).

(** [top_genres], over [df["genre"].dropna()] *)
Definition top_genres (df : list EnrichedTrack) : list (string * nat) :=
  top_counts (omap e_genre df).

(** The chart under "Top genres in this playlist". *)
Definition genre_chart (df : list EnrichedTrack) : chart :=
  if truthy (omap e_genre df)
  then BarChart (top_genres df)
  else StInfoBox "No genre information available for this playlist".

End charts.

(** The order [value_counts] leaves between equal counts, as a given of
    the run. *)
Class TieOrder := sort_counts : list (string * nat) → list (string * nat).

(** ** The script: [get_spotify_client] and [main] *)

(** The three values read from the environment. *)
Record Env := {
  CLIENT_ID : option string;
  CLIENT_SECRET : option string;
  REDIRECT_URI : option string }.

Definition credentials_missing : string :=
  "Spotify credentials are missing. "
  +:+ "Set SPOTIFY_CLIENT_ID, SPOTIFY_CLIENT_SECRET and "
  +:+ "SPOTIFY_REDIRECT_URI in your .env file.".

(** [connect] is what building [SpotifyOAuth] and [Spotify] from the
    credentials gives. *)
Definition get_spotify_client (env : Env) (connect : result Spotify)
    : io (option Spotify) :=
  if negb (truthy (CLIENT_ID env)) || negb (truthy (CLIENT_SECRET env))
     || negb (truthy (REDIRECT_URI env))
  then emit (StError credentials_missing);; ret None
  else try_except
         (sp <- lift connect;; ret (Some sp))
         is_Exception
         (λ e, emit (StError ("Could not authenticate with Spotify: "
                              +:+ exn_str e));;
               ret None).

(** [f"{p['name']} ({p['tracks_total']} tracks)"] *)
Definition label (p : PlaylistSummary) : string :=
  str (ps_name p) +:+ " (" +:+ str (ps_tracks_total p) +:+ " tracks)".

(** [playlists[labels.index(choice)]] *)
Definition select_playlist (playlists : list PlaylistSummary)
    (choice : string) : result PlaylistSummary :=
  i ← index (label <$> playlists) choice;
  match playlists !! i with
  | Some selected => Ok selected
  | None => Raise (Exn IndexError "list index out of range")
  end.

Section script.

(** The surroundings of a run: the environment, the outcome of building
    the client, the option the user picks in the select box, the order in
    which sets iterate, and the bound on the paging loop. *)
Variable env : Env.
Variable connect : result Spotify.
Variable selectbox : list string → string.
Variable set_iter : gset string → list string.
Variable fuel : nat.
Context `{TieOrder}.

(** The summary, the table and the three charts: lines 195 to 250, run
    on a frame that has rows. *)
Definition present (df : list EnrichedTrack) : io unit :=
  emit (StSubheader "Playlist summary");;
  emit (StMetric "Tracks" (str (length df)));;
  emit (StMetric "Total length (hours)" (total_length_metric df));;
  emit (StMetric "Average popularity" (avg_popularity_metric df));;
  emit (StSubheader "Track details");;
  emit (StDataframe (table_row <$> df));;
  emit (StSubheader "Popularity distribution");;
  emit (StBarChart ((λ row, (e_name row, e_popularity row)) <$> df));;
  emit (StSubheader "Top artists in this playlist");;
  emit (StBarChartCounts (top_artists sort_counts df));;
  emit (StSubheader "Top genres in this playlist");;
  match genre_chart sort_counts df with
  | BarChart series => emit (StBarChartCounts series)
  | StInfoBox body => emit (StInfo body)
  end.

(** The analysis of the selected playlist: the body of [main] from the
    spinner on. *)
Definition analyse (sp_user : Spotify) (playlist_id : option string)
    : io unit :=
  tracks <- fetch_playlist_tracks fuel sp_user playlist_id;;
  if negb (truthy tracks)
  then emit (StWarning "This playlist has no tracks");; st_stop
  else
    df <- add_genres_if_available sp_user set_iter tracks;;
    present df.

(** [main] once the client is there: the profile, then the playlists
    and the selection. *)
Definition greet (sp_user : Spotify) : io unit :=
  try_except
    (user <- call ApiCurrentUser (current_user sp_user);;
     user <- lift (obj_of user);;
     let display_name := get_or "Unknown user" (user_display_name user) in
     emit (StSuccess ("Logged in as " +:+ str display_name)))
    is_Exception
    (λ e, emit (StError ("Could not fetch user profile: " +:+ exn_str e));;
          st_stop).

Definition browse (sp_user : Spotify) : io unit :=
  playlists <- fetch_playlists sp_user;;
  if negb (truthy playlists)
  then emit (StWarning "No playlists found on this account.");; st_stop
  else
    let labels := label <$> playlists in
    emit (StSelectbox "Choose a playlist" labels);;
    let choice := selectbox labels in
    selected <- lift (select_playlist playlists choice);;
    let playlist_id := ps_id selected in
    emit (StWrite ("Selected playlist: **" +:+ str (ps_name selected)
                   +:+ "**"));;
    analyse sp_user playlist_id.

Definition main : io unit :=
  emit (StTitle "Spotify Playlist Analyzer");;
  emit (StWrite "Log in with your Spotify account and explore your playlists.");;
  sp_user <- get_spotify_client env connect;;
  match sp_user with
  | None => st_stop
  | Some sp_user => greet sp_user;; browse sp_user
  end.

End script.

(** ** A service that keeps to the contract of the web API *)

Module Service.

(** The playlist listing: the first [limit] playlists of the account. *)
Definition list_playlists (all : list playlist) (limit : nat)
    : result (option playlists_page) :=
  Ok (Some (PlaylistsPage (Val (take limit all)))).

(** [delivers sp results entries]: starting from the page [results], the
    pages the client hands out by following the cursors hold [entries],
    split at the page boundaries.  A page without [items] holds none. *)
Inductive delivers (sp : Spotify) : option page → list item → Prop :=
| delivers_none :
    delivers sp None []
| delivers_last results items :
    get_or [] (page_items results) = Some items →
    truthy (get (page_next results)) = false →
    delivers sp (Some results) items
| delivers_more results items results' rest :
    get_or [] (page_items results) = Some items →
    truthy (get (page_next results)) = true →
    next sp results = Ok results' →
    delivers sp results' rest →
    delivers sp (Some results) (items ++ rest).

(** The artist lookup: the service knows the genres of the artists in
    [db], answers [None] for the other ids, and rejects the batches
    [refused] picks, with an HTTP status. *)
Definition known_artists (db : gmap string (field (list string)))
    (batch : list string) : list (option artist) :=
  (λ aid, (λ genres, Artist (Val aid) genres true) <$> db !! aid) <$> batch.

Definition rejection (status : Z) : exn :=
  Exn (SpotifyException status) "http status".

Definition lookup_artists (db : gmap string (field (list string)))
    (refused : list string → option Z) (batch : list string)
    : result (option artists_response) :=
  match refused batch with
  | Some status => Raise (rejection status)
  | None => Ok (Some (ArtistsResponse (Val (known_artists db batch))))
  end.

Definition never_refused (batch : list string) : option Z := None.

End Service.

(** ** Notions used to state the properties *)

(** The batches the enricher asks for, in order. *)
Definition batches (artist_ids_list : list string) : list (list string) :=
  (λ start, slice artist_ids_list start batch_size)
  <$> range0 (length artist_ids_list) batch_size.

(** An entry that lets the item loop go on: it has no track payload, or
    an empty one, or one whose album is not stored as null. *)
Definition album_ok (entry : item) : bool :=
  match get (item_track entry) with
  | Some track =>
      negb (truthy track)
      || match track_album track with Null => false | _ => true end
  | None => true
  end.

(** The track payloads the item loop keeps: present and not empty. *)
Definition kept_tracks (entries : list item) : list Payload.track :=
  omap (λ entry, match get (item_track entry) with
                 | Some track => if truthy track then Some track else None
                 | None => None
                 end) entries.

(** The track payloads of the entries that have one, whatever it
    holds. *)
Definition present_tracks (entries : list item) : list Payload.track :=
  omap (λ entry, get (item_track entry)) entries.

(** The artists of a track payload, none when the key is missing or
    null. *)
Definition artists_of (track : Payload.track) : list artist_ref :=
  match track_artists track with Val l => l | _ => [] end.

Definition non_empty (s : string) : Prop := s ≠ "".
Global Instance non_empty_dec s : Decision (non_empty s).
Proof. unfold non_empty. apply _. Defined.

(** The names, and the ids, that are neither null nor empty, in the
    order of the artists. *)
Definition usable_names (track : Payload.track) : list string :=
  filter non_empty (omap (λ a, get (artist_name a)) (artists_of track)).
Definition usable_ids (track : Payload.track) : list string :=
  filter non_empty (omap (λ a, get (artist_id a)) (artists_of track)).

(** The ids that are not null, in the order of the artists. *)
Definition non_null_ids (track : Payload.track) : list string :=
  omap (λ a, get (artist_id a)) (artists_of track).

(** An artist whose id is neither null nor empty. *)
Definition has_usable_id (a : artist_ref) : Prop :=
  ∃ aid, get (artist_id a) = Some aid ∧ non_empty aid.
Global Instance has_usable_id_dec a : Decision (has_usable_id a).
Proof.
  unfold has_usable_id. destruct (get (artist_id a)) as [aid|].
  - destruct (decide (non_empty aid)); [left; eauto|right; intros (? & [= <-] & ?); done].
  - right. intros (? & [=] & _).
Defined.

(** An artist that has a non-null id. *)
Definition has_id (a : artist_ref) : Prop := is_Some (get (artist_id a)).
Global Instance has_id_dec a : Decision (has_id a).
Proof. unfold has_id. apply _. Defined.

(** The record expected for a track payload. *)
Definition expected_track (track : Payload.track) : Track :=
  {| t_id := get (track_id track);
     t_name := get (track_name track);
     t_artist := join ", " (usable_names track);
     t_artist_ids := usable_ids track;
     t_album := match track_album track with
                | Val al => get (album_name al)
                | _ => None
                end;
     t_duration_ms := get (track_duration_ms track);
     t_popularity := get (track_popularity track) |}.

(** An enriched row carries the columns of its track. *)
Definition same_track (t : Track) (row : EnrichedTrack) : Prop :=
  e_id row = t_id t ∧ e_name row = t_name t ∧ e_artist row = t_artist t
  ∧ e_album row = t_album t ∧ e_duration_ms row = t_duration_ms t
  ∧ e_popularity row = t_popularity t
  ∧ e_duration_min row = duration_min (t_duration_ms t).

(** The same, on the columns copied from the track as they are. *)
Definition same_columns (t : Track) (row : EnrichedTrack) : Prop :=
  e_id row = t_id t ∧ e_name row = t_name t ∧ e_artist row = t_artist t
  ∧ e_album row = t_album t ∧ e_duration_ms row = t_duration_ms t
  ∧ e_popularity row = t_popularity t.

(** The summary expected for an element of the playlist listing: a
    missing [tracks] object or a missing [total] counts as 0. *)
Definition expected_summary (p : playlist) : PlaylistSummary :=
  {| ps_id := get (playlist_id p);
     ps_name := get (playlist_name p);
     ps_tracks_total := match playlist_tracks_ref p with
                        | Val t => match tracks_total t with
                                   | Missing => Some 0
                                   | Null => None
                                   | Val n => Some n
                                   end
                        | _ => Some 0
                        end |}.

Definition tracks_ref_not_null (p : playlist) : bool :=
  match playlist_tracks_ref p with Null => false | _ => true end.

(** The genre tags of a track's artists, as the index gives them. *)
Definition genre_tags (index : gmap string (list string))
    (artist_ids : list string) : gset string :=
  ⋃ ((λ aid, list_to_set (default [] (index !! aid))) <$> artist_ids).

(** The genre string after the specification's words: the union of the
    genre lists of the artists, without duplicates, sorted, joined; null
    for an empty union. *)
Definition spec_genre (index : gmap string (list string))
    (artist_ids : list string) : option string :=
  let tags := genre_tags index artist_ids in
  if decide (tags = ∅) then None else Some (join ", " (sorted tags)).

(** What the index holds for an artist after the lookups, given what the
    service knows. *)
Definition genres_entry (db : gmap string (field (list string)))
    (aid : string) : option (list string) :=
  if truthy aid
  then (λ genres, or_else (get_or [] genres) []) <$> db !! aid
  else None.

(** A row with the duration [ms] and nothing else. *)
Definition duration_row (ms : option Z) : EnrichedTrack :=
  {| e_id := None; e_name := None; e_artist := ""; e_artist_ids := None;
     e_album := None; e_duration_ms := ms; e_popularity := None;
     e_duration_min := duration_min ms; e_genre := None |}.

(** The events of the lookup of one batch: the call, and the warning when
    the service rejects it. *)
Definition batch_events (refused : list string → option Z)
    (batch : list string) : list event :=
  ApiArtists batch
  :: match refused batch with
     | Some status => [StWarning (refused_warning (Service.rejection status))]
     | None => []
     end.

(** Some batch that holds the id was answered. *)
Definition answered (refused : list string → option Z)
    (bs : list (list string)) (aid : string) : Prop :=
  Exists (λ batch, aid ∈ batch ∧ refused batch = None) bs.
Global Instance answered_dec refused bs aid : Decision (answered refused bs aid).
Proof. unfold answered. apply _. Defined.

(** The log of a run up to the listing of the playlists. *)
Definition login_log (user : Payload.user) : list event :=
  [StTitle "Spotify Playlist Analyzer";
   StWrite "Log in with your Spotify account and explore your playlists.";
   ApiCurrentUser;
   StSuccess ("Logged in as "
              +:+ str (get_or "Unknown user" (user_display_name user)))].

(** Events of a log. *)
Definition is_artists_call (e : event) : bool :=
  match e with ApiArtists _ => true | _ => false end.
Definition is_warning (e : event) : bool :=
  match e with StWarning _ => true | _ => false end.
Definition is_error (e : event) : bool :=
  match e with StError _ => true | _ => false end.


(** ** A small account, to instantiate the properties *)

Module Sample.

Definition ann : artist_ref := ArtistRef (Val "a1") (Val "Ann").
Definition bob : artist_ref := ArtistRef (Val "b2") (Val "Bob").
(** A name without an id, and an id that is the empty string. *)
Definition guest : artist_ref := ArtistRef Null (Val "Guest").
Definition blank : artist_ref := ArtistRef (Val "") (Val "X").

Definition song (id : string) (artists : list artist_ref) (ms : field Z)
    : Payload.track :=
  TrackObj (Val id) (Val id) (Val artists) (Val (Album (Val "LP"))) ms
           (Val 50) true.

Definition solo : Payload.track := song "t1" [ann] (Val 180000).
Definition trio : Payload.track := song "t2" [ann; bob; guest] (Val 240000).
Definition odd : Payload.track := song "t3" [blank] Null.

(** A playlist of three entries, the second a removed track, served in
    two pages. *)
Definition entries : list item := [Item (Val solo); Item Null; Item (Val trio)].
Definition page2 : page := Page (Val [Item (Val trio)]) Null true.
Definition page1 : page :=
  Page (Val [Item (Val solo); Item Null]) (Val "page2") true.

Definition db : gmap string (field (list string)) :=
  <["a1" := Val ["rock"]]> (<["b2" := Val ["pop"; "rock"]]> ∅).

Definition listing : list playlist :=
  [Playlist (Val "p1") (Val "Mix") (Val (TracksRef (Val 3)));
   Playlist (Val "p2") (Val "Mix") (Val (TracksRef (Val 3)));
   Playlist (Val "p3") (Val "Bare") Missing].

Definition client (all : list playlist) (refused : list string → option Z)
    : Spotify :=
  {| current_user := Ok (Some (User (Val "me")));
     current_user_playlists := Service.list_playlists all;
     playlist_tracks := λ _ _, Ok (Some page1);
     next := λ results,
       match page_next results with
       | Val "page2" => Ok (Some page2)
       | _ => Ok None
       end;
     artists := Service.lookup_artists db refused |}.

Definition env : Env :=
  {| CLIENT_ID := Some "id"; CLIENT_SECRET := Some "secret";
     REDIRECT_URI := Some "http://localhost:8501" |}.

(** The same client, except that the track listing fails. *)
Definition gateway_error : exn := Exn (SpotifyException 502) "Bad gateway".
Definition broken (all : list playlist) : Spotify :=
  {| current_user := current_user (client all Service.never_refused);
     current_user_playlists :=
       current_user_playlists (client all Service.never_refused);
     playlist_tracks := λ _ _, Raise gateway_error;
     next := next (client all Service.never_refused);
     artists := artists (client all Service.never_refused) |}.

(** The user picks the last option of the select box. *)
Definition pick_last (options : list string) : string :=
  default "" (last options).

(** Tracks as the fetcher builds them for the playlist above. *)
Definition tracks : list Track := expected_track <$> [solo; trio].

(** A track without artist ids. *)
Definition anonymous : Track :=
  {| t_id := Some "t0"; t_name := Some "Untitled"; t_artist := "";
     t_artist_ids := []; t_album := None; t_duration_ms := None;
     t_popularity := None |}.

End Sample.

(** ** Clients with one faulty method *)

Module Faulty.

Definition with_current_user (r : result (option user)) (sp : Spotify)
    : Spotify :=
  {| current_user := r;
     current_user_playlists := current_user_playlists sp;
     playlist_tracks := playlist_tracks sp;
     next := next sp;
     artists := artists sp |}.

Definition with_playlists (r : result (option playlists_page)) (sp : Spotify)
    : Spotify :=
  {| current_user := current_user sp;
     current_user_playlists := λ _, r;
     playlist_tracks := playlist_tracks sp;
     next := next sp;
     artists := artists sp |}.

Definition with_tracks (r : result (option page)) (sp : Spotify) : Spotify :=
  {| current_user := current_user sp;
     current_user_playlists := current_user_playlists sp;
     playlist_tracks := λ _ _, r;
     next := next sp;
     artists := artists sp |}.

Definition with_next (r : result (option page)) (sp : Spotify) : Spotify :=
  {| current_user := current_user sp;
     current_user_playlists := current_user_playlists sp;
     playlist_tracks := playlist_tracks sp;
     next := λ _, r;
     artists := artists sp |}.

Definition with_artists (r : result (option artists_response))
    (sp : Spotify) : Spotify :=
  {| current_user := current_user sp;
     current_user_playlists := current_user_playlists sp;
     playlist_tracks := playlist_tracks sp;
     next := next sp;
     artists := λ _, r |}.

Definition timeout : exn := Exn OtherException "Read timed out.".

Definition healthy : Spotify :=
  Sample.client Sample.listing Service.never_refused.

End Faulty.

(** The log of a run before the client is built. *)
Definition banner_log : list event :=
  [StTitle "Spotify Playlist Analyzer";
   StWrite "Log in with your Spotify account and explore your playlists."].

(** ** Notions for the further properties *)

(** What [fetch_playlists] does with the answer of the service. *)
Definition listing_outcome (answer : result (option playlists_page))
    : result (list PlaylistSummary) :=
  match answer with
  | Ok (Some results) =>
      match playlists_items results with
      | Missing => Ok []
      | Null => Raise none_not_iterable
      | Val items =>
          if forallb tracks_ref_not_null items
          then Ok (expected_summary <$> items)
          else Raise none_has_no_get
      end
  | Ok None => Raise none_has_no_get
  | Raise e => Raise e
  | OutOfFuel => OutOfFuel
  end.

(** No record holds an empty artist id. *)
Definition ids_non_empty (tracks : list Track) : Prop :=
  Forall (λ t, Forall non_empty (t_artist_ids t)) tracks.


(** Pages and payloads for the instances. *)
Module Pages.

(** A track object without any key, and one whose album is null. *)
Definition hollow : Payload.track :=
  TrackObj Missing Missing Missing Missing Missing Missing false.
Definition no_album : Payload.track :=
  TrackObj (Val "t9") (Val "Loose") Null Null Null Null true.

Definition only (items : list item) : page := Page (Val items) Null true.

Definition removed : list item := [Item Null; Item Missing; Item (Val hollow)].

End Pages.

(** The batches of the artist lookups of a log, in order. *)
Definition lookup_calls (log : list event) : list (list string) :=
  omap (λ ev, match ev with ApiArtists batch => Some batch | _ => None end) log.

(** The genre index the service's data amounts to: a null or missing
    genre list counts as empty. *)
Definition db_index (db : gmap string (field (list string)))
    : gmap string (list string) :=
  (λ genres, or_else (get_or [] genres) []) <$> db.

(** The first batch of a list of ids. *)
Definition first_batch (l : list string) : list string := slice l 0 batch_size.



(** The log of the selection. *)
Definition selection_log (playlists : list PlaylistSummary)
    (selected : PlaylistSummary) : list event :=
  [ApiCurrentUserPlaylists 50;
   StSelectbox "Choose a playlist" (label <$> playlists);
   StWrite ("Selected playlist: **" +:+ str (ps_name selected) +:+ "**")].


(** One admissible [sort_values]: a merge sort on the counts. *)
Definition by_count (a b : string * nat) : Prop := (b.2 ≤ a.2)%nat.
Global Instance by_count_dec a b : Decision (by_count a b).
Proof. unfold by_count. apply _. Defined.

Definition sort_by_count (t : list (string * nat)) : list (string * nat) :=
  merge_sort by_count t.

(** No occurrence of ", " in a string. *)
Definition comma_free (s : string) : Prop := ∀ a b, s ≠ a +:+ ", " +:+ b.

(** The tie order of the sample runs. *)
Global Instance sample_tie_order : TieOrder := sort_by_count.
(** * Properties *)

(** ** The order of strings and [sorted] *)

Section str_order.

Lemma ascii_compare_refl c : Ascii.compare c c = Eq.
Proof. unfold Ascii.compare. apply N.compare_refl. Qed.

Lemma ascii_compare_lt_trans a b c :
  Ascii.compare a b = Lt → Ascii.compare b c = Lt → Ascii.compare a c = Lt.
Proof.
  unfold Ascii.compare. rewrite !N.compare_lt_iff. apply N.lt_trans.
Qed.

Lemma string_compare_refl s : String.compare s s = Eq.
Proof. induction s as [|c s IH]; simpl; [done|]. by rewrite ascii_compare_refl. Qed.

Lemma string_compare_lt_trans s1 s2 s3 :
  String.compare s1 s2 = Lt → String.compare s2 s3 = Lt →
  String.compare s1 s3 = Lt.
Proof.
  revert s2 s3. induction s1 as [|a s1 IH]; intros [|b s2] [|c s3]; simpl;
    try done.
  destruct (Ascii.compare a b) eqn:Hab; try done;
    destruct (Ascii.compare b c) eqn:Hbc; try done; intros H12 H23.
  - apply Ascii.compare_eq_iff in Hab, Hbc. subst.
    rewrite ascii_compare_refl. eauto.
  - apply Ascii.compare_eq_iff in Hab. subst. by rewrite Hbc.
  - apply Ascii.compare_eq_iff in Hbc. subst. by rewrite Hab.
  - by rewrite (ascii_compare_lt_trans a b c).
Qed.

Lemma str_le_lt_or_eq a b : str_le a b ↔ str_lt a b ∨ a = b.
Proof.
  unfold str_le, str_lt, String.leb, String.ltb. split.
  - destruct (String.compare a b) eqn:Hc; try done; [|by left].
    right. by apply String.compare_eq_iff.
  - intros [H| ->]; [|by rewrite string_compare_refl].
    by destruct (String.compare a b).
Qed.

Lemma str_lt_irrefl a : ¬ str_lt a a.
Proof. unfold str_lt, String.ltb. by rewrite string_compare_refl. Qed.

Lemma str_lt_trans a b c : str_lt a b → str_lt b c → str_lt a c.
Proof.
  unfold str_lt, String.ltb. intros Hab Hbc.
  rewrite (string_compare_lt_trans a b c); [done|..].
  - by destruct (String.compare a b).
  - by destruct (String.compare b c).
Qed.

Global Instance str_le_total : Total str_le.
Proof. intros a b. apply String.leb_total. Qed.

Global Instance str_le_antisymm : AntiSymm (=) str_le.
Proof. intros a b. apply String.leb_antisym. Qed.

Global Instance str_le_trans : Transitive str_le.
Proof.
  intros a b c. rewrite !str_le_lt_or_eq.
  intros [Hab| ->] [Hbc| ->]; eauto using str_lt_trans.
Qed.

End str_order.





(** ** The genre string of a track *)

Lemma elem_of_concat {A} (x : A) (ls : list (list A)) :
  x ∈ concat ls ↔ ∃ l, x ∈ l ∧ l ∈ ls.
Proof.
  induction ls as [|l ls IH]; simpl.
  - split; [by intros ?%elem_of_nil|]. by intros (? & _ & ?%elem_of_nil).
  - rewrite elem_of_app, IH. split.
    + intros [?|(l' & ? & ?)]; [exists l|exists l']; split; auto; constructor; done.
    + intros (l' & Hx & Hl). apply elem_of_cons in Hl as [->|?]; eauto.
Qed.

Section genre_string.

Context (genres_map : gmap string (list string)).

(** The loop of [join_genres] concatenates the genre lists. *)
Lemma collected_foldl (acc : list string) (artist_ids : list string) :
  foldl (λ collected aid, collected ++ default [] (genres_map !! aid))
        acc artist_ids
  = acc ++ concat ((λ aid, default [] (genres_map !! aid)) <$> artist_ids).
Proof.
  revert acc. induction artist_ids as [|aid ids IH]; intros acc; simpl.
  - by rewrite app_nil_r.
  - by rewrite IH, app_assoc.
Qed.

Lemma elem_of_genre_tags (artist_ids : list string) (g : string) :
  g ∈ genre_tags genres_map artist_ids
  ↔ ∃ aid, aid ∈ artist_ids ∧ g ∈ default [] (genres_map !! aid).
Proof.
  unfold genre_tags. rewrite elem_of_union_list. split.
  - intros (X & HX & Hg). apply list_elem_of_fmap in HX as (aid & -> & Haid).
    exists aid. split; [done|]. by apply elem_of_list_to_set in Hg.
  - intros (aid & Haid & Hg). exists (list_to_set (default [] (genres_map !! aid))).
    split; [|by apply elem_of_list_to_set].
    apply list_elem_of_fmap. eauto.
Qed.

Lemma collected_tags (artist_ids : list string) :
  list_to_set (concat ((λ aid, default [] (genres_map !! aid)) <$> artist_ids))
  = genre_tags genres_map artist_ids.
Proof.
  apply set_eq. intros g. rewrite elem_of_genre_tags, elem_of_list_to_set.
  rewrite elem_of_concat. split.
  - intros (l & Hg & Hl). apply list_elem_of_fmap in Hl as (aid & -> & Haid). eauto.
  - intros (aid & Haid & Hg). eexists. split; [done|].
    apply list_elem_of_fmap. eauto.
Qed.


(** The code agrees with the specification's wording. *)
Lemma join_genres_spec (artist_ids : list string) :
  join_genres genres_map artist_ids = spec_genre genres_map artist_ids.
Proof.
  unfold join_genres, spec_genre. rewrite collected_foldl. simpl.
  rewrite <- collected_tags.
  destruct artist_ids as [|aid ids]; [done|].
  set (collected := concat _).
  destruct collected as [|g gs] eqn:Hc; simpl.
  - by rewrite decide_True.
  - rewrite decide_False; [done|]. set_solver.
Qed.

End genre_string.


(** ** The total length *)

Lemma omap_id_fmap {A B} (f : A → option B) (l : list A) :
  omap id (f <$> l) = omap f l.
Proof.
  induction l as [|x l IH]; [done|].
  rewrite fmap_cons. cbn [omap list_omap]. rewrite IH. done.
Qed.

(** Rows without a duration add nothing to the total. *)
Lemma total_minutes_skips_null (df : list EnrichedTrack) :
  total_minutes df = Some (foldl Qplus 0%Q (omap e_duration_min df)).
Proof. unfold total_minutes, sum_skipna. by rewrite omap_id_fmap. Qed.

Lemma total_minutes_cons_null (row : EnrichedTrack) (df : list EnrichedTrack) :
  e_duration_min row = None → total_minutes (row :: df) = total_minutes df.
Proof. intros H. rewrite !total_minutes_skips_null. simpl. by rewrite H. Qed.

(** The sum is always a number: the "N/A" branch of the metric is never
    taken. *)
Lemma total_minutes_notna (df : list EnrichedTrack) : is_Some (total_minutes df).
Proof. rewrite total_minutes_skips_null. eauto. Qed.

(** Durations 180000, null and 240000 ms: 7 minutes, shown as 0.12 h. *)
Example total_length_scenario :
  let df := duration_row <$> [Some 180000; None; Some 240000] in
  (∃ total, total_minutes df = Some total ∧ (total == 7)%Q)
  ∧ total_length_metric df = "0.12".
Proof. split; [eexists; split; [reflexivity|]|]; by vm_compute. Qed.

(** C2. When no row has a duration the total is the number 0 and the
    metric shows "0.00": the tool does not report "N/A" for a playlist
    whose durations are all null. *)
Theorem total_length_all_null (df : list EnrichedTrack) :
  Forall (λ row, e_duration_min row = None) df →
  total_minutes df = Some 0%Q
  ∧ total_length_metric df = "0.00"
  ∧ total_length_metric df ≠ "N/A".
Proof.
  intros Hnull.
  assert (total_minutes df = Some 0%Q) as Htotal.
  { induction Hnull as [|row df Hrow _ IH]; [done|].
    by rewrite total_minutes_cons_null. }
  unfold total_length_metric. rewrite Htotal. by vm_compute.
Qed.

Lemma total_length_all_null_witness :
  let df := duration_row <$> [None; None] in
  Forall (λ row, e_duration_min row = None) df
  ∧ total_length_metric df = "0.00".
Proof.
  split.
  - repeat constructor.
  - apply (total_length_all_null (duration_row <$> [None; None])).
    repeat constructor.
Defined.

(** ** The record of a track *)

Lemma truthy_non_empty (s : string) : truthy s = true ↔ non_empty s.
Proof. unfold non_empty. by destruct s. Qed.

Lemma artists_or_else (track : Payload.track) :
  or_else (get_or [] (track_artists track)) [] = artists_of track.
Proof.
  unfold artists_of. destruct (track_artists track) as [| |[|a l]]; done.
Qed.

(** A comprehension with the filter [if x] keeps the values that are
    neither null nor empty. *)
Lemma omap_if_truthy {A} (g : A → option string) (l : list A) :
  omap (λ a, if_truthy (g a)) l = filter non_empty (omap g l).
Proof.
  induction l as [|a l IH]; [done|]. cbn [omap list_omap].
  destruct (g a) as [[|c s]|]; simpl; rewrite IH; [| |done].
  - by rewrite filter_cons_False by (by intros ?).
  - by rewrite filter_cons_True by done.
Qed.

Lemma track_row_expected (track : Payload.track) :
  track_album track ≠ Null → track_row track = Ok (expected_track track).
Proof.
  intros Halbum. unfold track_row, expected_track, usable_names, usable_ids.
  rewrite artists_or_else, !omap_if_truthy.
  destruct (track_album track); done.
Qed.

Lemma track_row_null_album (track : Payload.track) :
  track_album track = Null → track_row track = Raise none_has_no_get.
Proof. intros Halbum. unfold track_row. by rewrite Halbum. Qed.

Lemma length_usable_ids (track : Payload.track) :
  length (usable_ids track) = length (filter has_usable_id (artists_of track)).
Proof.
  unfold usable_ids. induction (artists_of track) as [|a l IH]; [done|].
  cbn [omap list_omap]. destruct (decide (has_usable_id a)) as [Ha|Ha].
  - rewrite (filter_cons_True has_usable_id) by done.
    destruct Ha as (aid & -> & Haid).
    rewrite filter_cons_True by done. simpl. by rewrite IH.
  - rewrite (filter_cons_False has_usable_id) by done.
    destruct (get (artist_id a)) as [aid|] eqn:Hid; [|done].
    rewrite filter_cons_False; [done|]. intros ?. apply Ha. by exists aid.
Qed.

Lemma elem_of_usable_names (track : Payload.track) (n : string) :
  n ∈ usable_names track
  ↔ non_empty n ∧ ∃ a, a ∈ artists_of track ∧ get (artist_name a) = Some n.
Proof.
  unfold usable_names. rewrite list_elem_of_filter, list_elem_of_omap.
  naive_solver.
Qed.

Lemma elem_of_usable_ids (track : Payload.track) (aid : string) :
  aid ∈ usable_ids track
  ↔ non_empty aid ∧ ∃ a, a ∈ artists_of track ∧ get (artist_id a) = Some aid.
Proof.
  unfold usable_ids. rewrite list_elem_of_filter, list_elem_of_omap.
  naive_solver.
Qed.

(** C7, as the code has it. For a track payload whose album is not null,
    the artist field is the ", "-join of the artist names that are neither
    null nor empty, in the service's order, and [artist_ids] holds exactly
    the ids that are neither null nor empty, in the same order: as many as
    there are artists with such an id, possibly none. An artist with a
    name but without an id is in the name string and adds nothing to
    [artist_ids]. *)
Theorem track_row_artists (track : Payload.track) :
  track_album track ≠ Null →
  ∃ row, track_row track = Ok row
    ∧ t_artist row = join ", " (usable_names track)
    ∧ t_artist_ids row = usable_ids track
    ∧ length (t_artist_ids row)
      = length (filter has_usable_id (artists_of track))
    ∧ (∀ a n, a ∈ artists_of track → get (artist_name a) = Some n →
         non_empty n → n ∈ usable_names track)
    ∧ (∀ aid, aid ∈ t_artist_ids row →
         ∃ a, a ∈ artists_of track ∧ get (artist_id a) = Some aid).
Proof.
  intros Halbum. exists (expected_track track).
  split; [by apply track_row_expected|]. simpl.
  split; [done|]. split; [done|]. split; [apply length_usable_ids|]. split.
  - intros a n Ha Hn Hne. apply elem_of_usable_names. eauto.
  - intros aid Haid. by apply elem_of_usable_ids in Haid as [_ ?].
Qed.

Lemma track_row_artists_witness :
  ∃ row, track_row Sample.trio = Ok row
    ∧ t_artist row = "Ann, Bob, Guest"
    ∧ t_artist_ids row = ["a1"; "b2"].
Proof.
  destruct (track_row_artists Sample.trio) as (row & Hrow & Hnames & Hids & _).
  - done.
  - exists row. split; [done|]. by rewrite Hnames, Hids.
Defined.

(** C7 as stated fails for an artist whose id is the empty string: the id
    is not null, yet it is left out of [artist_ids], which then has fewer
    elements than there are artists with a non-null id. *)
Lemma artist_ids_drop_empty_id :
  ∃ row, track_row Sample.odd = Ok row
    ∧ non_null_ids Sample.odd = [""]
    ∧ t_artist_ids row = []
    ∧ t_artist_ids row ≠ non_null_ids Sample.odd
    ∧ length (t_artist_ids row)
      ≠ length (filter has_id (artists_of Sample.odd)).
Proof. eexists. split; [reflexivity|]. by vm_compute. Qed.

(** ** The genre index built from the batch lookups *)

Section lookups.

Context (sp : Spotify) (db : gmap string (field (list string))).
Context (refused : list string → option Z).
Hypothesis Hsp : artists sp = Service.lookup_artists db refused.

Lemma artist_body_known (aid : string) (G : gmap string (list string)) :
  artist_body ((λ genres, Artist (Val aid) genres true) <$> db !! aid) G
  = match genres_entry db aid with
    | Some tags => <[aid := tags]> G
    | None => G
    end.
Proof.
  assert (∀ genres, truthy (Artist (Val aid) genres true) = true) as Hknown.
  { intros genres. unfold truthy, truthy_artist. apply orb_true_r. }
  unfold genres_entry, artist_body.
  destruct (db !! aid) as [genres|]; cbn [fmap option_fmap option_map].
  - rewrite Hknown. cbn [get full_artist_id full_artist_genres].
    by destruct (truthy aid).
  - by destruct (truthy aid).
Qed.

Lemma artists_loop_lookup (batch : list string)
    (G : gmap string (list string)) (x : string) :
  foldl (flip artist_body) G (Service.known_artists db batch) !! x
  = if decide (x ∈ batch)
    then from_option Some (G !! x) (genres_entry db x)
    else G !! x.
Proof.
  revert G. induction batch as [|aid batch IH]; intros G.
  - rewrite decide_False; [done|]. apply not_elem_of_nil.
  - unfold Service.known_artists. rewrite fmap_cons. cbn [foldl flip].
    fold (Service.known_artists db batch). rewrite IH, artist_body_known.
    destruct (decide (x = aid)) as [->|Hne].
    + rewrite (decide_True (P := aid ∈ aid :: batch)) by constructor.
      destruct (genres_entry db aid) as [tags|].
      * rewrite lookup_insert_eq. by case_decide.
      * by case_decide.
    + assert (∀ v, (match genres_entry db aid with
                    | Some tags => <[aid:=tags]> G | None => G end) !! x = v
                   ↔ G !! x = v) as Hother.
      { intros v. destruct (genres_entry db aid); [|done].
        by rewrite lookup_insert_ne. }
      destruct (decide (x ∈ batch)) as [Hin|Hnin].
      * rewrite decide_True by (by constructor).
        f_equal. by apply Hother.
      * rewrite decide_False; [by apply Hother|].
        rewrite elem_of_cons. tauto.
Qed.

Lemma batch_body_service (l : list string) (start : nat)
    (G : gmap string (list string)) :
  let batch := slice l start batch_size in
  batch_body sp l start G
  = (Ok (match refused batch with
         | Some _ => G
         | None => foldl (flip artist_body) G (Service.known_artists db batch)
         end),
     batch_events refused batch).
Proof.
  simpl. unfold batch_body, batch_events. rewrite Hsp.
  unfold Service.lookup_artists.
  by destruct (refused (slice l start batch_size)) as [status|].
Qed.

Lemma batches_loop (l : list string) (starts : list nat)
    (G : gmap string (list string)) :
  ∃ G', for_in_io (batch_body sp l) starts G
        = (Ok G', concat (batch_events refused
                          <$> ((λ start, slice l start batch_size) <$> starts)))
    ∧ ∀ x, G' !! x
           = if decide (answered refused
                          ((λ start, slice l start batch_size) <$> starts) x)
             then from_option Some (G !! x) (genres_entry db x)
             else G !! x.
Proof.
  revert G. induction starts as [|start starts IH]; intros G.
  - exists G. split; [reflexivity|]. intros x. rewrite decide_False; [done|].
    unfold answered. rewrite fmap_nil, Exists_nil. tauto.
  - cbn [for_in_io]. rewrite batch_body_service. cbv zeta.
    set (batch := slice l start batch_size).
    set (G1 := match refused batch with Some _ => G | None => _ end).
    destruct (IH G1) as (G' & Hrun & HG'). exists G'. split.
    + unfold bind. rewrite Hrun. by rewrite fmap_cons.
    + intros x. rewrite HG', fmap_cons. fold batch.
      assert (G1 !! x = if decide (x ∈ batch ∧ refused batch = None)
                        then from_option Some (G !! x) (genres_entry db x)
                        else G !! x) as HG1.
      { unfold G1. destruct (refused batch) as [status|] eqn:Hr.
        - rewrite decide_False; [done|]. by intros [_ ?].
        - rewrite artists_loop_lookup.
          destruct (decide (x ∈ batch)); [by rewrite decide_True|].
          rewrite decide_False; [done|]. by intros [? _]. }
      rewrite HG1. unfold answered. 
      destruct (decide (x ∈ batch ∧ refused batch = None)) as [Hb|Hb];
        destruct (decide (Exists _ (_ <$> starts))) as [Hbs|Hbs].
      * rewrite decide_True by (by apply Exists_cons_hd).
        by destruct (genres_entry db x).
      * by rewrite decide_True by (by apply Exists_cons_hd).
      * by rewrite decide_True by (by apply Exists_cons_tl).
      * rewrite decide_False; [done|]. rewrite Exists_cons. tauto.
Qed.

(** With a service that keeps to the contract the lookups never raise:
    the index holds the genres of the artists of the answered batches and
    the log lists every batch, with a warning after each rejected one. *)
Lemma lookup_genres_service (l : list string) :
  ∃ G, lookup_genres sp l = (Ok G, concat (batch_events refused <$> batches l))
    ∧ ∀ x, G !! x = if decide (answered refused (batches l) x)
                    then genres_entry db x else None.
Proof.
  destruct (batches_loop l (range0 (length l) batch_size) ∅) as (G & Hrun & HG).
  exists G. split; [exact Hrun|]. intros x.
  unfold batches. rewrite HG, lookup_empty.
  case_decide; [|done]. by destruct (genres_entry db x).
Qed.

End lookups.

(** Only [SpotifyException] is handled in the loop over the batches: any
    other exception of a lookup leaves the enricher. *)
Lemma batch_body_other_exception (sp : Spotify) (l : list string)
    (start : nat) (G : gmap string (list string)) (e : exn) :
  artists sp (slice l start batch_size) = Raise e →
  is_SpotifyException e = false →
  batch_body sp l start G = (Raise e, [ApiArtists (slice l start batch_size)]).
Proof.
  intros Hcall Hother. unfold batch_body, call, bind at 2, try_except.
  rewrite Hcall. simpl. by rewrite Hother.
Qed.

(** ** The enricher as a whole *)

Lemma same_track_frame_row (t : Track) : same_track t (frame_row t).
Proof. by repeat split. Qed.

Lemma same_track_genre_row (G : gmap string (list string)) (t : Track)
    (row : EnrichedTrack) :
  same_track t row → same_track t (genre_row G row).
Proof. by intros (?&?&?&?&?&?&?); repeat split. Qed.

Lemma same_track_frame (tracks : list Track) :
  Forall2 same_track tracks (frame_row <$> tracks).
Proof.
  induction tracks; constructor; [apply same_track_frame_row|done].
Qed.

Lemma same_track_genres (G : gmap string (list string)) (tracks : list Track) :
  Forall2 same_track tracks (genre_row G <$> (frame_row <$> tracks)).
Proof.
  induction tracks; constructor; [|done].
  apply same_track_genre_row, same_track_frame_row.
Qed.

Lemma all_artist_ids_nil : all_artist_ids [] = ∅.
Proof. done. Qed.

Lemma elem_of_all_artist_ids (tracks : list Track) (aid : string) :
  aid ∈ all_artist_ids tracks
  ↔ truthy aid = true ∧ ∃ t, t ∈ tracks ∧ aid ∈ t_artist_ids t.
Proof.
  unfold all_artist_ids.
  rewrite elem_of_list_to_set, list_elem_of_filter, elem_of_concat.
  rewrite Is_true_true. split.
  - intros (Haid & l & Hl & Hin). split; [done|].
    apply list_elem_of_fmap in Hin as (t & -> & Ht). eauto.
  - intros (Haid & t & Ht & Hin). split; [done|].
    exists (t_artist_ids t). split; [done|]. apply list_elem_of_fmap. eauto.
Qed.

Section enricher_paths.

Context (sp : Spotify) (set_iter : gset string → list string).

(** The early return: no id was collected. *)
Lemma add_genres_no_ids (tracks : list Track) :
  all_artist_ids tracks = ∅ →
  add_genres_if_available sp set_iter tracks = (Ok (frame_row <$> tracks), []).
Proof.
  intros Hnone. unfold add_genres_if_available.
  destruct tracks as [|t tracks]; [done|]. cbn [truthy truthy_list negb].
  rewrite Hnone. unfold truthy, truthy_gset.
  by rewrite bool_decide_false by (by intros ?).
Qed.

(** The main path. *)
Lemma add_genres_some_ids (tracks : list Track) :
  all_artist_ids tracks ≠ ∅ →
  add_genres_if_available sp set_iter tracks
  = (genres_map <- lookup_genres sp (set_iter (all_artist_ids tracks));;
     ret (genre_row genres_map <$> (frame_row <$> tracks))).
Proof.
  intros Hsome. unfold add_genres_if_available.
  destruct tracks as [|t tracks]; [done|]. cbn [truthy truthy_list negb].
  unfold truthy at 1, truthy_gset. by rewrite bool_decide_true.
Qed.

End enricher_paths.

(** C8. When the set of artist ids the enricher collects is empty (as it
    is when no track has an artist id), every track gets a null genre, the
    rows are those of the input tracks in order, and nothing is logged: no
    artist lookup is issued. *)
Theorem no_artist_ids_no_lookup (sp : Spotify)
    (set_iter : gset string → list string) (tracks : list Track) :
  all_artist_ids tracks = ∅ →
  ∃ df, add_genres_if_available sp set_iter tracks = (Ok df, [])
    ∧ Forall (λ row, e_genre row = None) df
    ∧ Forall2 same_track tracks df.
Proof.
  intros Hnone. exists (frame_row <$> tracks).
  split; [by apply add_genres_no_ids|]. split; [|apply same_track_frame].
  apply Forall_fmap, Forall_forall. done.
Qed.

(** Tracks without artist ids give an empty set of ids. *)
Lemma all_artist_ids_no_ids (tracks : list Track) :
  Forall (λ t, t_artist_ids t = []) tracks → all_artist_ids tracks = ∅.
Proof.
  intros Hnone. apply set_eq. intros aid.
  rewrite elem_of_all_artist_ids. split; [|set_solver].
  intros (_ & t & Ht & Hin). rewrite Forall_forall in Hnone.
  rewrite (Hnone t Ht) in Hin. by apply elem_of_nil in Hin.
Qed.

(** ** The batches *)

Lemma concat_chunks {A} (step k : nat) (l : list A) :
  (length l ≤ k * step)%nat →
  concat ((λ start, slice l start step) <$> ((λ i, i * step)%nat <$> seq 0 k))
  = l.
Proof.
  revert l. induction k as [|k IH]; intros l Hlen.
  - destruct l; [done|]. simpl in Hlen. lia.
  - rewrite <- cons_seq, <- fmap_S_seq, !fmap_cons. cbn [concat].
    replace ((λ start, slice l start step)
             <$> ((λ i, i * step)%nat <$> (S <$> seq 0 k)))
      with ((λ start, slice (drop step l) start step)
            <$> ((λ i, i * step)%nat <$> seq 0 k)).
    + rewrite IH by (rewrite length_drop; lia).
      unfold slice. rewrite Nat.mul_0_l, drop_0. apply take_drop.
    + rewrite <- !list_fmap_compose. apply list_fmap_ext. intros _ i _.
      unfold slice, compose. rewrite drop_drop. do 2 f_equal; lia.
Qed.

(** The batches split the list of ids: nothing is lost or repeated. *)
Lemma concat_batches (l : list string) : concat (batches l) = l.
Proof.
  unfold batches, range0. apply concat_chunks. unfold batch_size.
  pose proof (Nat.div_mod (length l + 50 - 1) 50).
  pose proof (Nat.mod_upper_bound (length l + 50 - 1) 50). lia.
Qed.

Lemma elem_of_batches (l : list string) (x : string) :
  (∃ batch, batch ∈ batches l ∧ x ∈ batch) ↔ x ∈ l.
Proof.
  transitivity (x ∈ concat (batches l)); [|by rewrite concat_batches].
  rewrite elem_of_concat. split; intros (batch & ? & ?); eauto.
Qed.

Lemma length_batch (l : list string) (batch : list string) :
  batch ∈ batches l → (length batch ≤ batch_size)%nat.
Proof.
  unfold batches. intros (start & -> & _)%list_elem_of_fmap.
  unfold slice. rewrite length_take. lia.
Qed.

Lemma answered_never_refused (l : list string) (x : string) :
  answered Service.never_refused (batches l) x ↔ x ∈ l.
Proof.
  unfold answered. rewrite Exists_exists, <- elem_of_batches.
  split; [intros (batch & ? & ? & _)|intros (batch & ? & ?)]; eauto.
Qed.

Lemma join_genres_ext (G G' : gmap string (list string)) (ids : list string) :
  (∀ aid, aid ∈ ids → G !! aid = G' !! aid) →
  join_genres G ids = join_genres G' ids.
Proof.
  intros Hsame. rewrite !join_genres_spec. unfold spec_genre.
  replace (genre_tags G' ids) with (genre_tags G ids); [done|].
  apply set_eq. intros g. rewrite !elem_of_genre_tags.
  split; intros (aid & Haid & Hg); exists aid; split; try done.
  - by rewrite <- Hsame.
  - by rewrite Hsame.
Qed.

Lemma join_genres_empty (ids : list string) : join_genres ∅ ids = None.
Proof.
  rewrite join_genres_spec. unfold spec_genre. rewrite decide_True; [done|].
  apply set_eq. intros g. rewrite elem_of_genre_tags. split; [|set_solver].
  intros (aid & _ & Hg). rewrite lookup_empty in Hg. by apply elem_of_nil in Hg.
Qed.

Lemma genre_row_frame_row (G : gmap string (list string)) (t : Track) :
  e_genre (genre_row G (frame_row t)) = join_genres G (t_artist_ids t).
Proof. done. Qed.

(** ** Order of the lookups, rejected batches *)

(** C9. With a service that answers every lookup from the same per-artist
    genre data, two orders of iteration over the set of artist ids (hence
    two different splits into batches) give the same enriched rows, genre
    strings included. *)
Theorem genres_independent_of_lookup_order (sp : Spotify)
    (db : gmap string (field (list string)))
    (set_iter1 set_iter2 : gset string → list string) (tracks : list Track) :
  artists sp = Service.lookup_artists db Service.never_refused →
  (∀ s, set_iter1 s ≡ₚ elements s) →
  (∀ s, set_iter2 s ≡ₚ elements s) →
  ∃ df log1 log2,
    add_genres_if_available sp set_iter1 tracks = (Ok df, log1)
    ∧ add_genres_if_available sp set_iter2 tracks = (Ok df, log2)
    ∧ Forall2 same_track tracks df.
Proof.
  intros Hsp Hiter1 Hiter2.
  destruct (decide (all_artist_ids tracks = ∅)) as [Hnone|Hsome].
  { exists (frame_row <$> tracks), [], [].
    rewrite !add_genres_no_ids by done. eauto using same_track_frame. }
  rewrite !add_genres_some_ids by done.
  set (ids := all_artist_ids tracks).
  destruct (lookup_genres_service sp db _ Hsp (set_iter1 ids)) as (G1 & Hrun1 & HG1).
  destruct (lookup_genres_service sp db _ Hsp (set_iter2 ids)) as (G2 & Hrun2 & HG2).
  assert (G1 = G2) as <-.
  { apply map_eq. intros x. rewrite HG1, HG2. apply decide_ext.
    rewrite !answered_never_refused, Hiter1, Hiter2. done. }
  unfold bind. rewrite Hrun1, Hrun2. simpl.
  do 3 eexists. split; [done|]. split; [done|]. apply same_track_genres.
Qed.

(** C4. Let the service reject the batches picked by [refused] with an
    HTTP error and answer the others from its genre data. The enricher
    then still returns one row per track; its log shows a lookup for every
    batch, in order, each rejected one followed by one warning; the genre
    of every row is computed from an index that holds the service's data
    for the artists of the answered batches and nothing for the others;
    and a track none of whose artists is in a rejected batch has the very
    genre string it has when no batch is rejected. *)
Theorem rejected_batch_is_isolated (sp sp' : Spotify)
    (db : gmap string (field (list string)))
    (refused : list string → option Z)
    (set_iter : gset string → list string) (tracks : list Track) :
  artists sp = Service.lookup_artists db refused →
  artists sp' = Service.lookup_artists db Service.never_refused →
  (∀ s, set_iter s ≡ₚ elements s) →
  let bs := batches (set_iter (all_artist_ids tracks)) in
  ∃ df df' log log' G,
    add_genres_if_available sp set_iter tracks = (Ok df, log)
    ∧ add_genres_if_available sp' set_iter tracks = (Ok df', log')
    ∧ log = concat (batch_events refused <$> bs)
    ∧ Forall2 same_track tracks df
    ∧ (∀ aid, G !! aid = if decide (answered refused bs aid)
                         then genres_entry db aid else None)
    ∧ Forall2 (λ t row, e_genre row = join_genres G (t_artist_ids t))
              tracks df
    ∧ ∀ i t row row',
        tracks !! i = Some t → df !! i = Some row → df' !! i = Some row' →
        (∀ aid batch, aid ∈ t_artist_ids t → batch ∈ bs → aid ∈ batch →
           refused batch = None) →
        e_genre row = e_genre row'.
Proof.
  intros Hsp Hsp' Hiter bs.
  destruct (decide (all_artist_ids tracks = ∅)) as [Hnone|Hsome].
  { exists (frame_row <$> tracks), (frame_row <$> tracks), [], [], ∅.
    rewrite !add_genres_no_ids by done.
    assert (bs = []) as ->.
    { unfold bs. rewrite Hnone.
      pose proof (Hiter ∅) as Hnil. rewrite elements_empty in Hnil.
      by apply Permutation_nil_r in Hnil as ->. }
    split; [done|]. split; [done|]. split; [done|].
    split; [apply same_track_frame|]. split.
    { intros aid. rewrite lookup_empty, decide_False; [done|].
      unfold answered. rewrite Exists_nil. tauto. }
    split.
    { apply Forall2_fmap_r, Forall_Forall2_diag, Forall_forall.
      intros t _. by rewrite join_genres_empty. }
    intros i t row row' _ Hrow Hrow' _. congruence. }
  rewrite !add_genres_some_ids by done. fold bs.
  destruct (lookup_genres_service sp db _ Hsp (set_iter (all_artist_ids tracks)))
    as (G & Hrun & HG).
  destruct (lookup_genres_service sp' db _ Hsp' (set_iter (all_artist_ids tracks)))
    as (G' & Hrun' & HG').
  fold bs in Hrun, HG, Hrun', HG'.
  unfold bind. rewrite Hrun, Hrun'. simpl. rewrite !app_nil_r.
  do 4 eexists. exists G.
  split; [done|]. split; [done|]. split; [done|].
  split; [apply same_track_genres|]. split; [done|]. split.
  { apply Forall2_fmap_r, Forall2_fmap_r, Forall_Forall2_diag, Forall_forall.
    intros t _. apply genre_row_frame_row. }
  intros i t row row' Ht Hrow Hrow' Hanswered.
  rewrite !list_lookup_fmap, Ht in Hrow, Hrow'. simpl in Hrow, Hrow'.
  injection Hrow as <-. injection Hrow' as <-.
  rewrite !genre_row_frame_row. apply join_genres_ext.
  intros aid Haid. rewrite HG, HG'. apply decide_ext.
  unfold answered. rewrite !Exists_exists. split.
  - intros (batch & Hb & Hin & _). by exists batch.
  - intros (batch & Hb & Hin & _). exists batch. eauto.
Qed.

(** ** The enricher under the service contract *)

(** With a service that keeps to the contract the enricher returns, with
    one row per track, in order. *)
Lemma add_genres_service_rows (sp : Spotify)
    (db : gmap string (field (list string)))
    (refused : list string → option Z)
    (set_iter : gset string → list string) (tracks : list Track) :
  artists sp = Service.lookup_artists db refused →
  ∃ df log, add_genres_if_available sp set_iter tracks = (Ok df, log)
    ∧ Forall2 same_track tracks df.
Proof.
  intros Hsp. destruct (decide (all_artist_ids tracks = ∅)) as [Hnone|Hsome].
  - rewrite add_genres_no_ids by done. eauto using same_track_frame.
  - rewrite add_genres_some_ids by done.
    destruct (lookup_genres_service sp db _ Hsp (set_iter (all_artist_ids tracks)))
      as (G & Hrun & _).
    unfold bind. rewrite Hrun. simpl. eauto using same_track_genres.
Qed.

(** ** Selecting a playlist *)

Lemma index_Ok {A} `{EqDecision A} (l : list A) (x : A) (i : nat) :
  index l x = Ok i ↔ l !! i = Some x ∧ ∀ j, (j < i)%nat → l !! j ≠ Some x.
Proof.
  revert i. induction l as [|y l IH]; intros i; simpl.
  - split; [done|]. by intros [? _].
  - destruct (decide (y = x)) as [->|Hne].
    + split.
      * intros [= <-]. split; [done|]. lia.
      * intros [Hi Hfirst]. destruct i as [|i]; [done|].
        destruct (Hfirst 0%nat); [lia|done].
    + destruct i as [|i].
      * split; [by destruct (index l x)|]. intros [[= ?] _]. done.
      * transitivity (index l x = Ok i).
        { destruct (index l x); split; intros [= ?]; by subst. }
        rewrite IH. simpl. split; intros [Hi Hfirst]; (split; [done|]).
        -- intros [|j] Hj; simpl; [congruence|]. apply Hfirst. lia.
        -- intros j Hj. apply (Hfirst (S j)). lia.
Qed.

Lemma index_elem_of {A} `{EqDecision A} (l : list A) (x : A) (k : nat) :
  l !! k = Some x → ∃ i, (i ≤ k)%nat ∧ index l x = Ok i.
Proof.
  revert k. induction l as [|y l IH]; intros k Hk; [done|]. simpl.
  destruct (decide (y = x)) as [->|Hne]; [exists 0%nat; split; [lia|done]|].
  destruct k as [|k]; simpl in Hk; [congruence|].
  destruct (IH k Hk) as (i & Hi & ->). exists (S i). split; [lia|done].
Qed.

(** C10. Whatever option of the select box the user picks, the playlist
    analysed is the first one, in listed order, whose label is the picked
    string. So when two playlists have the same label, no pick ever
    selects the later one. *)
Theorem selection_resolves_to_first (playlists : list PlaylistSummary) :
  (∀ k p, playlists !! k = Some p →
     ∃ i first, (i ≤ k)%nat
       ∧ playlists !! i = Some first
       ∧ label first = label p
       ∧ (∀ j q, (j < i)%nat → playlists !! j = Some q → label q ≠ label p)
       ∧ index (label <$> playlists) (label p) = Ok i
       ∧ select_playlist playlists (label p) = Ok first)
  ∧ (∀ i j a b choice, (i < j)%nat →
       playlists !! i = Some a → playlists !! j = Some b →
       label a = label b →
       index (label <$> playlists) choice ≠ Ok j).
Proof.
  split.
  - intros k p Hk.
    destruct (index_elem_of (label <$> playlists) (label p) k)
      as (i & Hik & Hidx); [by rewrite list_lookup_fmap, Hk|].
    pose proof Hidx as [Hi Hfirst]%index_Ok.
    rewrite list_lookup_fmap in Hi.
    destruct (playlists !! i) as [first|] eqn:Hfirst_p; [|done].
    injection Hi as Hlabel. exists i, first.
    split; [done|]. split; [done|]. split; [done|]. split.
    { intros j q Hj Hq Hsame. apply (Hfirst j Hj).
      by rewrite list_lookup_fmap, Hq, <- Hsame. }
    split; [done|]. unfold select_playlist. rewrite Hidx.
    cbn [mbind result_bind]. by rewrite Hfirst_p.
  - intros i j a b choice Hij Ha Hb Hsame [Hj Hfirst]%index_Ok.
    rewrite list_lookup_fmap, Hb in Hj. injection Hj as <-.
    apply (Hfirst i Hij). rewrite list_lookup_fmap, Ha. simpl. by rewrite Hsame.
Qed.

(** Two playlists called "Mix" with three tracks each: picking the second
    option analyses the first of them. *)
Example selection_of_duplicate_label :
  let playlists := expected_summary <$> Sample.listing in
  label <$> playlists = ["Mix (3 tracks)"; "Mix (3 tracks)"; "Bare (0 tracks)"]
  ∧ ∃ selected, select_playlist playlists "Mix (3 tracks)" = Ok selected
      ∧ ps_id selected = Some "p1".
Proof. split; [by vm_compute|]. eexists. split; by vm_compute. Qed.

(** ** Listing the playlists *)

Lemma playlist_summary_expected (p : playlist) :
  tracks_ref_not_null p = true → playlist_summary p = Ok (expected_summary p).
Proof.
  unfold tracks_ref_not_null, playlist_summary, expected_summary.
  destruct (playlist_tracks_ref p) as [| |[[| |total]]]; done.
Qed.

(** A [tracks] key stored with null makes the listing raise. *)
Lemma playlist_summary_null_tracks (p : playlist) :
  playlist_tracks_ref p = Null → playlist_summary p = Raise none_has_no_get.
Proof. unfold playlist_summary. by intros ->. Qed.

Lemma summaries_loop (items : list playlist) (acc : list PlaylistSummary) :
  Forall (λ p, tracks_ref_not_null p = true) items →
  for_in (λ item playlists,
            summary ← playlist_summary item; Ok (playlists ++ [summary]))
         items acc
  = Ok (acc ++ (expected_summary <$> items)).
Proof.
  intros Hitems. revert acc.
  induction Hitems as [|p items Hp _ IH]; intros acc; simpl.
  - by rewrite app_nil_r.
  - rewrite playlist_summary_expected by done. cbn [mbind result_bind].
    rewrite IH. by rewrite <- app_assoc.
Qed.

Lemma fetch_playlists_log (sp : Spotify) :
  snd (fetch_playlists sp) = [ApiCurrentUserPlaylists 50].
Proof.
  unfold fetch_playlists, call, bind, lift.
  destruct (current_user_playlists sp 50); simpl; by rewrite ?app_nil_r.
Qed.

Lemma fetch_playlists_expected (sp : Spotify) (all : list playlist) :
  current_user_playlists sp 50 = Service.list_playlists all 50 →
  Forall (λ p, tracks_ref_not_null p = true) all →
  fetch_playlists sp
  = (Ok (expected_summary <$> take 50 all), [ApiCurrentUserPlaylists 50]).
Proof.
  intros Hlist Hall. unfold fetch_playlists, call, bind, lift.
  rewrite Hlist. unfold Service.list_playlists. simpl.
  rewrite summaries_loop; [done|]. by apply Forall_take.
Qed.

(** ** The script *)

Section script_paths.

Context `{TieOrder}.
Context (env : Env) (sp : Spotify).
Context (selectbox : list string → string).
Context (set_iter : gset string → list string) (fuel : nat).

Lemma get_spotify_client_ok :
  truthy (CLIENT_ID env) = true → truthy (CLIENT_SECRET env) = true →
  truthy (REDIRECT_URI env) = true →
  get_spotify_client env (Ok sp) = (Ok (Some sp), []).
Proof. unfold get_spotify_client. by intros -> -> ->. Qed.

Lemma greet_ok (user : Payload.user) :
  current_user sp = Ok (Some user) →
  greet sp
  = (Ok tt, [ApiCurrentUser;
             StSuccess ("Logged in as "
                        +:+ str (get_or "Unknown user" (user_display_name user)))]).
Proof. unfold greet, call. by intros ->. Qed.

Lemma main_logged_in (user : Payload.user) :
  truthy (CLIENT_ID env) = true → truthy (CLIENT_SECRET env) = true →
  truthy (REDIRECT_URI env) = true →
  current_user sp = Ok (Some user) →
  main env (Ok sp) selectbox set_iter fuel
  = (fst (browse selectbox set_iter fuel sp),
     login_log user ++ snd (browse selectbox set_iter fuel sp)).
Proof.
  intros Hid Hsecret Huri Huser. unfold main.
  rewrite get_spotify_client_ok by done. unfold emit, bind at 1 2 3.
  rewrite (greet_ok user Huser). unfold bind.
  by destruct (browse selectbox set_iter fuel sp) as [[| |] log].
Qed.

End script_paths.

(** No playlist: a warning and a stop, no exception. *)
Example no_playlists_outcome :
  main Sample.env (Ok (Sample.client [] Service.never_refused))
       Sample.pick_last elements 0
  = (Raise (Exn StopException ""),
     login_log (User (Val "me"))
     ++ [ApiCurrentUserPlaylists 50;
         StWarning "No playlists found on this account."]).
Proof. reflexivity. Qed.

(** ** Instances on the sample account *)

Lemma no_artist_ids_no_lookup_witness :
  ∃ df, add_genres_if_available
          (Sample.client Sample.listing Service.never_refused) elements
          [Sample.anonymous]
        = (Ok df, [])
    ∧ Forall (λ row, e_genre row = None) df
    ∧ Forall2 same_track [Sample.anonymous] df.
Proof.
  apply (no_artist_ids_no_lookup
           (Sample.client Sample.listing Service.never_refused) elements
           [Sample.anonymous]).
  reflexivity.
Defined.

Lemma genres_independent_of_lookup_order_witness :
  let sp := Sample.client Sample.listing Service.never_refused in
  ∃ df log1 log2,
    add_genres_if_available sp elements Sample.tracks = (Ok df, log1)
    ∧ add_genres_if_available sp (reverse ∘ elements) Sample.tracks
      = (Ok df, log2)
    ∧ Forall2 same_track Sample.tracks df.
Proof.
  apply (genres_independent_of_lookup_order
           (Sample.client Sample.listing Service.never_refused) Sample.db
           elements (reverse ∘ elements) Sample.tracks).
  - reflexivity.
  - reflexivity.
  - intros s. apply reverse_Permutation.
Defined.

(** The two orders do give different batches. *)
Example lookup_orders_differ :
  let sp := Sample.client Sample.listing Service.never_refused in
  snd (add_genres_if_available sp elements Sample.tracks)
  ≠ snd (add_genres_if_available sp (reverse ∘ elements) Sample.tracks)
  ∧ e_genre <$> default [] (match fst (add_genres_if_available sp elements
                                         Sample.tracks) with
                            | Ok df => Some df
                            | _ => None
                            end)
    = [Some "rock"; Some "pop, rock"].
Proof. split; by vm_compute. Qed.

Lemma rejected_batch_is_isolated_witness :
  let sp := Sample.client Sample.listing (λ _, Some 429) in
  ∃ df log,
    add_genres_if_available sp elements Sample.tracks = (Ok df, log)
    ∧ length (filter (λ ev, is_warning ev = true) log) = 1%nat
    ∧ Forall2 same_track Sample.tracks df.
Proof.
  destruct (rejected_batch_is_isolated
              (Sample.client Sample.listing (λ _, Some 429))
              (Sample.client Sample.listing Service.never_refused)
              Sample.db (λ _, Some 429) elements Sample.tracks)
    as (df & df' & log & log' & G & Hrun & Hrun' & Hlog & Hsame & _).
  - reflexivity.
  - reflexivity.
  - reflexivity.
  - exists df, log. split; [exact Hrun|]. rewrite Hlog.
    split; [by vm_compute|done].
Defined.

(** The only batch is rejected: one lookup, one warning, no genre. *)
Example rejected_batch_outcome :
  let sp := Sample.client Sample.listing (λ _, Some 429) in
  ∃ df, add_genres_if_available sp elements Sample.tracks
        = (Ok df,
           [ApiArtists ["a1"; "b2"];
            StWarning ("Spotify refused artist genre request for a batch "
                       +:+ "of artists (HTTP 429). Skipping those artists.")])
    ∧ e_genre <$> df = [None; None].
Proof. eexists. split; by vm_compute. Qed.

Lemma selection_resolves_to_first_witness :
  let playlists := expected_summary <$> Sample.listing in
  ∃ first, select_playlist playlists "Mix (3 tracks)" = Ok first
    ∧ playlists !! 0%nat = Some first
    ∧ index (label <$> playlists) "Mix (3 tracks)" ≠ Ok 1%nat.
Proof.
  destruct (selection_resolves_to_first (expected_summary <$> Sample.listing))
    as [Hfirst Hlater].
  exists (expected_summary (Playlist (Val "p1") (Val "Mix")
                              (Val (TracksRef (Val 3))))).
  split; [by vm_compute|]. split; [done|].
  apply (Hlater 0%nat 1%nat
           (expected_summary (Playlist (Val "p1") (Val "Mix")
                                (Val (TracksRef (Val 3)))))
           (expected_summary (Playlist (Val "p2") (Val "Mix")
                                (Val (TracksRef (Val 3))))));
    [lia|reflexivity..].
Defined.

(** Sixty distinct artists are looked up in two batches, of 50 and 10. *)
Lemma batches_sixty (l : list string) :
  length l = 60%nat → length <$> batches l = [50; 10]%nat.
Proof.
  intros Hlen. unfold batches, range0, slice, batch_size. rewrite Hlen.
  change ((60 + 50 - 1) / 50)%nat with 2%nat. simpl.
  rewrite !length_take, !length_drop, Hlen. reflexivity.
Qed.

(** * Further properties of the script *)

(** ** Configuration and login *)

Section login.

Context `{TieOrder}.

Context (selectbox : list string → string).
Context (set_iter : gset string → list string) (fuel : nat).

(** X1. When one of the three configuration values is absent or empty,
    [get_spotify_client] gives no client and shows the credentials
    message, whatever building the client would give, and [main] stops
    right there: the log holds no call to the service. *)
Theorem missing_credentials_stop (env : Env) (connect : result Spotify) :
  truthy (CLIENT_ID env) = false ∨ truthy (CLIENT_SECRET env) = false
  ∨ truthy (REDIRECT_URI env) = false →
  get_spotify_client env connect = (Ok None, [StError credentials_missing])
  ∧ main env connect selectbox set_iter fuel
    = (Raise (Exn StopException ""),
       banner_log ++ [StError credentials_missing]).
Proof.
  intros Hmissing.
  assert (get_spotify_client env connect
          = (Ok None, [StError credentials_missing])) as Hclient.
  { unfold get_spotify_client.
    destruct Hmissing as [-> | [-> | ->]]; simpl;
      rewrite ?orb_true_r; reflexivity. }
  split; [done|]. unfold main. by rewrite Hclient.
Qed.

(** X2. With the three values present, [get_spotify_client] never raises
    an [Exception]: when building the client fails it shows "Could not
    authenticate with Spotify: ..." and gives no client, and [main] stops
    without any call to the service. *)
Theorem authentication_failure_stop (env : Env) (e : exn) :
  truthy (CLIENT_ID env) = true → truthy (CLIENT_SECRET env) = true →
  truthy (REDIRECT_URI env) = true →
  is_Exception e = true →
  get_spotify_client env (Raise e)
  = (Ok None, [StError ("Could not authenticate with Spotify: " +:+ exn_str e)])
  ∧ main env (Raise e) selectbox set_iter fuel
    = (Raise (Exn StopException ""),
       banner_log
       ++ [StError ("Could not authenticate with Spotify: " +:+ exn_str e)]).
Proof.
  intros Hid Hsecret Huri He.
  assert (get_spotify_client env (Raise e)
          = (Ok None, [StError ("Could not authenticate with Spotify: "
                                +:+ exn_str e)])) as Hclient.
  { unfold get_spotify_client. rewrite Hid, Hsecret, Huri. simpl.
    by rewrite He. }
  split; [done|]. unfold main. by rewrite Hclient.
Qed.

(** X3. When the profile cannot be fetched (the call raises an
    [Exception], or answers [None]), [main] shows "Could not fetch user
    profile: ..." and stops: the playlists are never asked for. *)
Theorem profile_failure_stop (env : Env) (sp : Spotify) (e : exn) :
  truthy (CLIENT_ID env) = true → truthy (CLIENT_SECRET env) = true →
  truthy (REDIRECT_URI env) = true →
  (current_user sp = Raise e ∧ is_Exception e = true)
  ∨ (current_user sp = Ok None ∧ e = none_has_no_get) →
  main env (Ok sp) selectbox set_iter fuel
  = (Raise (Exn StopException ""),
     banner_log
     ++ [ApiCurrentUser;
         StError ("Could not fetch user profile: " +:+ exn_str e)]).
Proof.
  intros Hid Hsecret Huri Hprofile. unfold main.
  rewrite get_spotify_client_ok by done.
  assert (greet sp = (Raise (Exn StopException ""),
                      [ApiCurrentUser;
                       StError ("Could not fetch user profile: "
                                +:+ exn_str e)])) as Hgreet.
  { unfold greet, call.
    destruct Hprofile as [[-> He] | [-> ->]]; simpl; [by rewrite He|done]. }
  unfold emit, bind. by rewrite Hgreet.
Qed.

(** X4. The listing of the playlists has no handler: when the call
    raises, the exception leaves [main] as it is, after the login and
    without any error message. *)
Theorem listing_failure_propagates (env : Env) (sp : Spotify)
    (user : Payload.user) (e : exn) :
  truthy (CLIENT_ID env) = true → truthy (CLIENT_SECRET env) = true →
  truthy (REDIRECT_URI env) = true →
  current_user sp = Ok (Some user) →
  current_user_playlists sp 50 = Raise e →
  main env (Ok sp) selectbox set_iter fuel
  = (Raise e, login_log user ++ [ApiCurrentUserPlaylists 50]).
Proof.
  intros Hid Hsecret Huri Huser Hlist.
  rewrite (main_logged_in env sp selectbox set_iter fuel user) by done.
  unfold browse, fetch_playlists, call, bind. by rewrite Hlist.
Qed.

End login.

Lemma missing_credentials_stop_witness :
  main {| CLIENT_ID := Some "id"; CLIENT_SECRET := Some "";
          REDIRECT_URI := None |}
       (Ok Faulty.healthy) Sample.pick_last elements 0
  = (Raise (Exn StopException ""), banner_log ++ [StError credentials_missing]).
Proof.
  apply (missing_credentials_stop Sample.pick_last elements 0
           {| CLIENT_ID := Some "id"; CLIENT_SECRET := Some "";
              REDIRECT_URI := None |} (Ok Faulty.healthy)).
  right. left. reflexivity.
Defined.

Lemma authentication_failure_stop_witness :
  main Sample.env (Raise Faulty.timeout) Sample.pick_last elements 0
  = (Raise (Exn StopException ""),
     banner_log
     ++ [StError "Could not authenticate with Spotify: Read timed out."]).
Proof.
  apply (authentication_failure_stop Sample.pick_last elements 0
           Sample.env Faulty.timeout); reflexivity.
Defined.

Lemma profile_failure_stop_witness :
  main Sample.env
       (Ok (Faulty.with_current_user (Raise Faulty.timeout) Faulty.healthy))
       Sample.pick_last elements 0
  = (Raise (Exn StopException ""),
     banner_log
     ++ [ApiCurrentUser;
         StError "Could not fetch user profile: Read timed out."]).
Proof.
  apply (profile_failure_stop Sample.pick_last elements 0 Sample.env
           (Faulty.with_current_user (Raise Faulty.timeout) Faulty.healthy)
           Faulty.timeout); try reflexivity.
  left. split; reflexivity.
Defined.

Lemma listing_failure_propagates_witness :
  main Sample.env
       (Ok (Faulty.with_playlists (Raise Faulty.timeout) Faulty.healthy))
       Sample.pick_last elements 0
  = (Raise Faulty.timeout,
     login_log (User (Val "me")) ++ [ApiCurrentUserPlaylists 50]).
Proof.
  apply (listing_failure_propagates Sample.pick_last elements 0 Sample.env
           (Faulty.with_playlists (Raise Faulty.timeout) Faulty.healthy)
           (User (Val "me")) Faulty.timeout); reflexivity.
Defined.

(** ** The lister and the selection, in full *)

Lemma summaries_loop_outcome (items : list playlist)
    (acc : list PlaylistSummary) :
  for_in (λ item playlists,
            summary ← playlist_summary item; Ok (playlists ++ [summary]))
         items acc
  = if forallb tracks_ref_not_null items
    then Ok (acc ++ (expected_summary <$> items))
    else Raise none_has_no_get.
Proof.
  revert acc. induction items as [|p items IH]; intros acc; simpl.
  - by rewrite app_nil_r.
  - destruct (tracks_ref_not_null p) eqn:Hp; simpl.
    + rewrite playlist_summary_expected by done. cbn [mbind result_bind].
      rewrite IH. destruct (forallb _ items); [|done].
      by rewrite <- app_assoc.
    + rewrite playlist_summary_null_tracks; [done|].
      unfold tracks_ref_not_null in Hp. by destruct (playlist_tracks_ref p).
Qed.

(** X5. [fetch_playlists] makes one call, for 50 playlists, and nothing
    else. It returns one summary per listed playlist, in order; no
    playlist when the answer has no [items]; it raises [AttributeError]
    when the answer is [None] or when any element stores null under
    [tracks] (no partial list is returned), [TypeError] when [items] is
    null, and lets an exception of the call through. *)
Theorem fetch_playlists_outcome (sp : Spotify) :
  fetch_playlists sp
  = (listing_outcome (current_user_playlists sp 50),
     [ApiCurrentUserPlaylists 50]).
Proof.
  unfold fetch_playlists, listing_outcome, call, bind, lift.
  destruct (current_user_playlists sp 50) as [[results|]|e|]; simpl; try done.
  destruct (playlists_items results) as [| |items]; simpl; try done.
  rewrite summaries_loop_outcome. by destruct (forallb _ items).
Qed.

(** X6. Selecting by label never fails for a string that is the label of
    a listed playlist, and gives a playlist with that label; for any
    other string it raises an exception of class [ValueError]. An
    [IndexError] cannot occur. *)
Theorem select_playlist_outcome (playlists : list PlaylistSummary)
    (choice : string) :
  (choice ∈ label <$> playlists →
     ∃ selected, select_playlist playlists choice = Ok selected
       ∧ selected ∈ playlists ∧ label selected = choice)
  ∧ (choice ∉ label <$> playlists →
     ∃ e, select_playlist playlists choice = Raise e
       ∧ exn_cls e = ValueError).
Proof.
  split.
  - intros (k & Hk)%list_elem_of_lookup_1.
    destruct (index_elem_of _ _ _ Hk) as (i & _ & Hidx).
    pose proof Hidx as [Hi _]%index_Ok.
    rewrite list_lookup_fmap in Hi.
    destruct (playlists !! i) as [selected|] eqn:Hsel; [|done].
    injection Hi as Hlabel. exists selected.
    unfold select_playlist. rewrite Hidx. cbn [mbind result_bind].
    rewrite Hsel. split; [done|]. split; [|done].
    by apply list_elem_of_lookup_2 in Hsel.
  - intros Hnot. unfold select_playlist.
    assert (∃ e, index (label <$> playlists) choice = Raise e
                 ∧ exn_cls e = ValueError) as (e & -> & Hcls);
      [|by exists e].
    induction (label <$> playlists) as [|l ls IH]; [by eexists|]. simpl.
    apply not_elem_of_cons in Hnot as [Hne Hnot].
    rewrite decide_False by done.
    destruct (IH Hnot) as (e & -> & Hcls). by exists e.
Qed.

Lemma select_playlist_outcome_witness :
  let playlists := expected_summary <$> Sample.listing in
  (∃ selected, select_playlist playlists "Bare (0 tracks)" = Ok selected
     ∧ selected ∈ playlists ∧ label selected = "Bare (0 tracks)")
  ∧ ∃ e, select_playlist playlists "Mix" = Raise e ∧ exn_cls e = ValueError.
Proof.
  destruct (select_playlist_outcome (expected_summary <$> Sample.listing)
              "Bare (0 tracks)") as [Hin _].
  destruct (select_playlist_outcome (expected_summary <$> Sample.listing)
              "Mix") as [_ Hout].
  split.
  - apply Hin. by vm_compute; repeat constructor.
  - apply Hout. vm_compute. intros Hin'.
    repeat (apply elem_of_cons in Hin' as [Hin'|Hin']; [done|]).
    by apply elem_of_nil in Hin'.
Defined.

(** ** The track fetcher, in full *)

Lemma item_body_outcome (entry : item) (acc : list Track) :
  item_body entry acc
  = if album_ok entry
    then Ok (acc ++ (expected_track <$> kept_tracks [entry]))
    else Raise none_has_no_get.
Proof.
  unfold item_body, album_ok, kept_tracks. cbn [omap list_omap].
  destruct (get (item_track entry)) as [track|]; simpl;
    [|by rewrite app_nil_r].
  destruct (truthy track); simpl; [|by rewrite app_nil_r].
  destruct (track_album track) eqn:Halbum.
  - rewrite track_row_expected; [done|]. by rewrite Halbum.
  - by rewrite track_row_null_album.
  - rewrite track_row_expected; [done|]. by rewrite Halbum.
Qed.

Lemma kept_tracks_cons (entry : item) (entries : list item) :
  kept_tracks (entry :: entries) = kept_tracks [entry] ++ kept_tracks entries.
Proof.
  unfold kept_tracks. cbn [omap list_omap].
  destruct (get (item_track entry)) as [track|]; [|done].
  by destruct (truthy track).
Qed.

(** The loop over the items of a page: the records of the kept payloads,
    or [AttributeError] as soon as one of them has a null album. *)
Lemma items_loop_outcome (items : list item) (acc : list Track) :
  for_in item_body items acc
  = if forallb album_ok items
    then Ok (acc ++ (expected_track <$> kept_tracks items))
    else Raise none_has_no_get.
Proof.
  revert acc. induction items as [|entry items IH]; intros acc.
  - simpl. by rewrite app_nil_r.
  - cbn [for_in forallb]. rewrite item_body_outcome.
    destruct (album_ok entry); cbn [andb mbind result_bind]; [|done].
    rewrite IH. destruct (forallb album_ok items); [|done].
    by rewrite (kept_tracks_cons entry items), fmap_app, app_assoc.
Qed.

Lemma single_page_run (sp : Spotify) (results : page) (items : list item)
    (acc : list Track) (fuel : nat) :
  get_or [] (page_items results) = Some items →
  truthy (get (page_next results)) = false →
  pages_loop (S fuel) sp (Some results) acc
  = (tracks ← for_in item_body items acc; Ok tracks, []).
Proof.
  intros Hitems Hnext. cbn [pages_loop].
  destruct (truthy results) eqn:Htruthy; cbn [negb].
  - rewrite Hitems. simpl iter_of. cbn [mbind result_bind]. unfold lift.
    destruct (for_in item_body items acc); try done. by rewrite Hnext.
  - assert (items = []) as ->; [|done].
    unfold truthy, truthy_page in Htruthy.
    destruct (page_items results); simpl in *; congruence.
Qed.

(** X7. A page without a cursor ends the fetch after one call. The
    outcome is one record per entry whose track payload is present and
    not empty, in order (an empty track object is skipped like a null
    one, a page without [items] holds no entry), unless one of these
    payloads stores null under [album]: then the fetch raises
    [AttributeError] and returns no track at all. *)
Theorem single_page_outcome (sp : Spotify) (playlist_id : option string)
    (results : page) (items : list item) (fuel : nat) :
  playlist_tracks sp playlist_id 100 = Ok (Some results) →
  get_or [] (page_items results) = Some items →
  truthy (get (page_next results)) = false →
  fetch_playlist_tracks (S fuel) sp playlist_id
  = (if forallb album_ok items
     then Ok (expected_track <$> kept_tracks items)
     else Raise none_has_no_get,
     [ApiPlaylistTracks playlist_id 100]).
Proof.
  intros Hfirst Hitems Hnext.
  unfold fetch_playlist_tracks, call, bind. rewrite Hfirst.
  rewrite (single_page_run sp results items [] fuel) by done.
  rewrite items_loop_outcome. by destruct (forallb album_ok items).
Qed.


Lemma track_row_ids_non_empty (track : Payload.track) (row : Track) :
  track_row track = Ok row → Forall non_empty (t_artist_ids row).
Proof.
  assert (track_album track = Null ∨ track_album track ≠ Null)
    as [Hnull|Halbum] by (destruct (track_album track); auto).
  - by rewrite track_row_null_album.
  - rewrite track_row_expected by done. intros [= <-]. simpl.
    apply Forall_forall. intros aid Haid.
    by apply elem_of_usable_ids in Haid as [? _].
Qed.

Lemma expected_tracks_ids_non_empty (payloads : list Payload.track) :
  ids_non_empty (expected_track <$> payloads).
Proof.
  apply Forall_fmap, Forall_forall. intros track _. simpl.
  apply Forall_forall. intros aid Haid.
  by apply elem_of_usable_ids in Haid as [? _].
Qed.

Lemma items_loop_ids_non_empty (items : list item) (acc tracks : list Track) :
  ids_non_empty acc →
  for_in item_body items acc = Ok tracks →
  ids_non_empty tracks.
Proof.
  intros Hacc. rewrite items_loop_outcome.
  destruct (forallb album_ok items); [|done]. intros [= <-].
  apply Forall_app. split; [done|]. apply expected_tracks_ids_non_empty.
Qed.

Lemma pages_loop_ids_non_empty (fuel : nat) (sp : Spotify)
    (results : option page) (acc tracks : list Track) (log : list event) :
  ids_non_empty acc →
  pages_loop fuel sp results acc = (Ok tracks, log) →
  ids_non_empty tracks.
Proof.
  revert results acc log. induction fuel as [|fuel IH];
    intros [results|] acc log Hacc; cbn [pages_loop];
    try (by intros [= <- _]).
  - destruct (truthy results); [done|]. by intros [= <- _].
  - destruct (truthy results); cbn [negb]; [|by intros [= <- _]].
    destruct (iter_of (get_or [] (page_items results))) as [items| |];
      cbn [mbind result_bind]; try done.
    destruct (for_in item_body items acc) as [tracks'| |] eqn:Hitems;
      try done.
    apply items_loop_ids_non_empty in Hitems; [|done].
    unfold lift, bind at 1.
    destruct (truthy (get (page_next results))).
    + unfold call, bind.
      destruct (next sp results) as [results'|e|]; try done.
      destruct (pages_loop fuel sp results' tracks') as [r log'] eqn:Hloop.
      intros [= -> _]. by apply (IH results' tracks' log').
    + by intros [= <- _].
Qed.

Lemma single_page_outcome_witness :
  fetch_playlist_tracks 1
    (Faulty.with_tracks
       (Ok (Some (Pages.only [Item (Val Pages.hollow); Item (Val Sample.solo)])))
       Faulty.healthy) None
  = (Ok [expected_track Sample.solo], [ApiPlaylistTracks None 100])
  ∧ fetch_playlist_tracks 1
      (Faulty.with_tracks
         (Ok (Some (Pages.only [Item (Val Sample.solo);
                                Item (Val Pages.no_album)])))
         Faulty.healthy) None
    = (Raise none_has_no_get, [ApiPlaylistTracks None 100]).
Proof.
  split.
  - apply (single_page_outcome
             (Faulty.with_tracks
                (Ok (Some (Pages.only [Item (Val Pages.hollow);
                                       Item (Val Sample.solo)])))
                Faulty.healthy) None
             (Pages.only [Item (Val Pages.hollow); Item (Val Sample.solo)])
             [Item (Val Pages.hollow); Item (Val Sample.solo)] 0);
      reflexivity.
  - apply (single_page_outcome
             (Faulty.with_tracks
                (Ok (Some (Pages.only [Item (Val Sample.solo);
                                       Item (Val Pages.no_album)])))
                Faulty.healthy) None
             (Pages.only [Item (Val Sample.solo); Item (Val Pages.no_album)])
             [Item (Val Sample.solo); Item (Val Pages.no_album)] 0);
      reflexivity.
Defined.


(** X9. Whatever the service answers, no record returned by the fetcher
    holds an empty artist id. The enricher's own filter therefore drops
    nothing: the set of ids it collects is the set of all the ids of the
    records, and it is empty exactly when no record has an artist id. *)
Theorem fetched_ids_non_empty (fuel : nat) (sp : Spotify)
    (playlist_id : option string) (tracks : list Track) (log : list event) :
  fetch_playlist_tracks fuel sp playlist_id = (Ok tracks, log) →
  ids_non_empty tracks
  ∧ all_artist_ids tracks = list_to_set (concat (t_artist_ids <$> tracks))
  ∧ (all_artist_ids tracks = ∅ ↔ Forall (λ t, t_artist_ids t = []) tracks).
Proof.
  unfold fetch_playlist_tracks, call, bind.
  destruct (playlist_tracks sp playlist_id 100) as [results|e|]; try done.
  destruct (pages_loop fuel sp results []) as [r log'] eqn:Hloop.
  intros [= -> _].
  assert (ids_non_empty tracks) as Hids.
  { apply (pages_loop_ids_non_empty fuel sp results [] tracks log');
      [constructor|done]. }
  assert (all_artist_ids tracks
          = list_to_set (concat (t_artist_ids <$> tracks))) as Hall.
  { apply set_eq. intros aid.
    rewrite elem_of_all_artist_ids, elem_of_list_to_set, elem_of_concat.
    split.
    - intros (_ & t & Ht & Hin). exists (t_artist_ids t).
      split; [done|]. apply list_elem_of_fmap. eauto.
    - intros (l & Hin & (t & -> & Ht)%list_elem_of_fmap).
      split; [|eauto]. apply truthy_non_empty.
      unfold ids_non_empty in Hids. rewrite Forall_forall in Hids.
      specialize (Hids t Ht). rewrite Forall_forall in Hids. auto. }
  split; [done|]. split; [done|]. split; [|apply all_artist_ids_no_ids].
  rewrite Hall. intros Hempty. apply Forall_forall. intros t Ht.
  destruct (t_artist_ids t) as [|aid ids] eqn:Hlist; [done|].
  assert (aid ∈ (∅ : gset string)) as Habs; [|set_solver].
  rewrite <- Hempty, elem_of_list_to_set, elem_of_concat.
  exists (t_artist_ids t). split; [rewrite Hlist; constructor|].
  apply list_elem_of_fmap. eauto.
Qed.

Lemma fetched_ids_non_empty_witness :
  ids_non_empty Sample.tracks
  ∧ all_artist_ids Sample.tracks = {["a1"; "b2"]}.
Proof.
  destruct (fetched_ids_non_empty 2 Faulty.healthy (Some "p1") Sample.tracks
              [ApiPlaylistTracks (Some "p1") 100; ApiNext (Val "page2")])
    as (Hids & Hall & _); [reflexivity|].
  split; [done|]. rewrite Hall. by vm_compute.
Defined.

Lemma kept_tracks_nil_album_ok (items : list item) :
  kept_tracks items = [] → forallb album_ok items = true.
Proof.
  induction items as [|entry items IH]; [done|].
  rewrite kept_tracks_cons. intros [Hentry Hitems]%app_eq_nil.
  cbn [forallb]. rewrite (IH Hitems), andb_true_r.
  unfold album_ok. unfold kept_tracks in Hentry. cbn [omap list_omap] in Hentry.
  destruct (get (item_track entry)) as [track|]; [|done].
  by destruct (truthy track).
Qed.

(** X10. A playlist without tracks (no answer, or a single page whose
    entries all lack a usable track payload) ends the analysis with the
    warning "This playlist has no tracks" and a stop: no artist is looked
    up and no metric is shown. *)
Theorem no_tracks_stop `{TieOrder} (sp : Spotify)
    (set_iter : gset string → list string)
    (playlist_id : option string) (results : page) (items : list item)
    (fuel : nat) :
  playlist_tracks sp playlist_id 100 = Ok None
  ∨ (playlist_tracks sp playlist_id 100 = Ok (Some results)
     ∧ get_or [] (page_items results) = Some items
     ∧ truthy (get (page_next results)) = false
     ∧ kept_tracks items = []) →
  analyse set_iter (S fuel) sp playlist_id
  = (Raise (Exn StopException ""),
     [ApiPlaylistTracks playlist_id 100;
      StWarning "This playlist has no tracks"]).
Proof.
  intros [Hnone | (Hfirst & Hitems & Hnext & Hkept)];
    unfold analyse, fetch_playlist_tracks, call, bind at 2.
  - by rewrite Hnone.
  - rewrite Hfirst.
    rewrite (single_page_run sp results items [] fuel) by done.
    rewrite items_loop_outcome, (kept_tracks_nil_album_ok items Hkept), Hkept.
    reflexivity.
Qed.

Lemma no_tracks_stop_witness :
  analyse elements 1
    (Faulty.with_tracks (Ok (Some (Pages.only Pages.removed))) Faulty.healthy)
    (Some "p1")
  = (Raise (Exn StopException ""),
     [ApiPlaylistTracks (Some "p1") 100;
      StWarning "This playlist has no tracks"]).
Proof.
  apply (no_tracks_stop
           (Faulty.with_tracks (Ok (Some (Pages.only Pages.removed)))
              Faulty.healthy)
           elements (Some "p1") (Pages.only Pages.removed) Pages.removed 0).
  right. repeat split; reflexivity.
Defined.

(** ** The enricher, in full *)

(** X11. The frame returned by the enricher keeps the column
    [artist_ids] when no artist id was collected (the early return) and
    has dropped it otherwise. *)
Theorem artist_ids_column (sp : Spotify)
    (set_iter : gset string → list string) (tracks : list Track)
    (df : list EnrichedTrack) (log : list event) :
  add_genres_if_available sp set_iter tracks = (Ok df, log) →
  (all_artist_ids tracks = ∅ →
     e_artist_ids <$> df = (λ t, Some (t_artist_ids t)) <$> tracks)
  ∧ (all_artist_ids tracks ≠ ∅ → Forall (λ row, e_artist_ids row = None) df).
Proof.
  intros Hrun. split; intros Hids.
  - rewrite add_genres_no_ids in Hrun by done. injection Hrun as <- _.
    by rewrite <- list_fmap_compose.
  - rewrite add_genres_some_ids in Hrun by done. unfold bind in Hrun.
    destruct (lookup_genres sp (set_iter (all_artist_ids tracks)))
      as [[G|e|] log0]; try done.
    injection Hrun as <- _. by apply Forall_fmap, Forall_forall.
Qed.

Lemma artist_ids_column_witness :
  ∃ df log,
    add_genres_if_available Faulty.healthy elements Sample.tracks = (Ok df, log)
    ∧ Forall (λ row, e_artist_ids row = None) df.
Proof.
  eexists _, _. split; [reflexivity|].
  eapply (artist_ids_column Faulty.healthy elements Sample.tracks);
    [reflexivity|]. by vm_compute.
Defined.

Lemma lookup_calls_batch_events (refused : list string → option Z)
    (bs : list (list string)) :
  lookup_calls (concat (batch_events refused <$> bs)) = bs.
Proof.
  unfold lookup_calls. induction bs as [|b bs IH]; [done|].
  rewrite fmap_cons. cbn [concat]. rewrite omap_app, IH.
  unfold batch_events. by destruct (refused b).
Qed.

Lemma range0_bound (n start : nat) :
  start ∈ range0 n batch_size → (start < n)%nat.
Proof.
  unfold range0, batch_size.
  intros (i & -> & Hi)%list_elem_of_fmap. apply elem_of_seq in Hi.
  pose proof (Nat.div_mod (n + 50 - 1) 50).
  pose proof (Nat.mod_upper_bound (n + 50 - 1) 50). lia.
Qed.

Lemma length_batches (l : list string) :
  length (batches l) = ((length l + 49) / 50)%nat.
Proof.
  unfold batches, range0, batch_size. rewrite !length_fmap, length_seq.
  f_equal. lia.
Qed.

Lemma batches_sizes (l : list string) :
  Forall (λ batch, (1 ≤ length batch ≤ batch_size)%nat) (batches l).
Proof.
  apply Forall_forall. intros batch Hbatch. split; [|by eapply length_batch].
  unfold batches in Hbatch.
  apply list_elem_of_fmap in Hbatch as (start & -> & Hstart%range0_bound).
  unfold slice, batch_size in *. rewrite length_take, length_drop. lia.
Qed.

(** X12. With a service that answers or rejects each batch, the enricher
    asks for every distinct artist id exactly once: the batches of its
    lookups, put end to end, are a reordering of the set of ids; each
    holds between 1 and 50 ids, and there are ceil(n / 50) of them for n
    ids. *)
Theorem every_id_looked_up_once (sp : Spotify)
    (db : gmap string (field (list string)))
    (refused : list string → option Z)
    (set_iter : gset string → list string) (tracks : list Track) :
  artists sp = Service.lookup_artists db refused →
  (∀ s, set_iter s ≡ₚ elements s) →
  ∃ df log,
    add_genres_if_available sp set_iter tracks = (Ok df, log)
    ∧ concat (lookup_calls log) ≡ₚ elements (all_artist_ids tracks)
    ∧ Forall (λ batch, (1 ≤ length batch ≤ 50)%nat) (lookup_calls log)
    ∧ length (lookup_calls log) = ((size (all_artist_ids tracks) + 49) / 50)%nat.
Proof.
  intros Hsp Hiter.
  destruct (decide (all_artist_ids tracks = ∅)) as [Hnone|Hsome].
  - rewrite add_genres_no_ids by done. do 2 eexists. split; [done|].
    rewrite Hnone, elements_empty, size_empty. by repeat split.
  - rewrite add_genres_some_ids by done.
    destruct (lookup_genres_service sp db _ Hsp (set_iter (all_artist_ids tracks)))
      as (G & Hrun & _).
    unfold bind. rewrite Hrun. simpl. rewrite app_nil_r.
    do 2 eexists. split; [done|]. rewrite lookup_calls_batch_events.
    split; [by rewrite concat_batches|]. split; [apply batches_sizes|].
    rewrite length_batches. unfold size, set_size. simpl.
    by rewrite (Permutation_length (Hiter _)).
Qed.

Lemma every_id_looked_up_once_witness :
  ∃ df log,
    add_genres_if_available
      (Sample.client Sample.listing (λ _, Some 429)) elements Sample.tracks
    = (Ok df, log)
    ∧ concat (lookup_calls log) ≡ₚ elements (all_artist_ids Sample.tracks)
    ∧ Forall (λ batch, (1 ≤ length batch ≤ 50)%nat) (lookup_calls log)
    ∧ length (lookup_calls log)
      = ((size (all_artist_ids Sample.tracks) + 49) / 50)%nat.
Proof.
  apply (every_id_looked_up_once
           (Sample.client Sample.listing (λ _, Some 429)) Sample.db
           (λ _, Some 429) elements Sample.tracks).
  - reflexivity.
  - reflexivity.
Defined.

Lemma range0_cons (n : nat) :
  (0 < n)%nat → ∃ rest, range0 n batch_size = 0%nat :: rest.
Proof.
  intros Hn. unfold range0, batch_size.
  destruct ((n + 50 - 1) / 50)%nat as [|k] eqn:Hk.
  - pose proof (Nat.div_mod (n + 50 - 1) 50).
    pose proof (Nat.mod_upper_bound (n + 50 - 1) 50). lia.
  - exists ((λ k, k * 50)%nat <$> seq 1 k). by rewrite <- cons_seq, fmap_cons.
Qed.

(** X13. Only the HTTP-level rejection of a lookup is handled. When the
    first lookup raises any other exception, answers [None], or answers
    with [artists] stored as null, the enricher raises ([AttributeError]
    and [TypeError] in the last two cases) after that single call: no
    frame is returned. *)
Theorem lookup_failure_propagates (sp : Spotify)
    (set_iter : gset string → list string) (tracks : list Track) (e : exn) :
  all_artist_ids tracks ≠ ∅ →
  (∀ s, set_iter s ≡ₚ elements s) →
  let first := first_batch (set_iter (all_artist_ids tracks)) in
  (artists sp first = Raise e ∧ is_SpotifyException e = false)
  ∨ (artists sp first = Ok None ∧ e = none_has_no_get)
  ∨ (artists sp first = Ok (Some (ArtistsResponse Null))
     ∧ e = none_not_iterable) →
  add_genres_if_available sp set_iter tracks = (Raise e, [ApiArtists first]).
Proof.
  intros Hsome Hiter first Hfail. unfold first, first_batch in *. clear first.
  rewrite add_genres_some_ids by done. unfold lookup_genres.
  destruct (range0_cons (length (set_iter (all_artist_ids tracks))))
    as (rest & ->).
  { rewrite (Permutation_length (Hiter _)).
    destruct (elements (all_artist_ids tracks)) eqn:Hel; [|simpl; lia].
    by apply elements_empty_inv, leibniz_equiv in Hel. }
  cbn [for_in_io].
  assert (batch_body sp (set_iter (all_artist_ids tracks)) 0 ∅
          = (Raise e,
             [ApiArtists (slice (set_iter (all_artist_ids tracks)) 0
                                batch_size)])) as Hbody.
  { unfold batch_body, call, try_except.
    destruct Hfail as [[-> Hother] | [[-> ->] | [-> ->]]]; simpl; [|done..].
    by rewrite Hother. }
  unfold bind. by rewrite Hbody.
Qed.

Lemma lookup_failure_propagates_witness :
  add_genres_if_available
    (Faulty.with_artists (Raise Faulty.timeout) Faulty.healthy) elements
    Sample.tracks
  = (Raise Faulty.timeout,
     [ApiArtists (first_batch (elements (all_artist_ids Sample.tracks)))]).
Proof.
  apply (lookup_failure_propagates
           (Faulty.with_artists (Raise Faulty.timeout) Faulty.healthy)
           elements Sample.tracks Faulty.timeout).
  - by vm_compute.
  - reflexivity.
  - left. split; reflexivity.
Defined.

(** ** Genres against the service's data *)

Lemma spec_genre_same_ids (G : gmap string (list string))
    (ids ids' : list string) :
  (∀ aid, aid ∈ ids ↔ aid ∈ ids') →
  spec_genre G ids = spec_genre G ids'.
Proof.
  intros Hsame. unfold spec_genre.
  replace (genre_tags G ids') with (genre_tags G ids); [done|].
  apply set_eq. intros g. rewrite !elem_of_genre_tags.
  by setoid_rewrite Hsame.
Qed.

(** X14. The genre string depends on the artist ids only as a set:
    repeating or reordering ids changes nothing, and the ids the index
    does not know contribute nothing. *)
Theorem join_genres_set_of_ids (G : gmap string (list string))
    (ids ids' : list string) :
  (∀ aid, aid ∈ ids ↔ aid ∈ ids') →
  join_genres G ids = join_genres G ids'
  ∧ join_genres G ids = join_genres G (filter (λ aid, is_Some (G !! aid)) ids).
Proof.
  intros Hsame. rewrite !join_genres_spec.
  split; [by apply spec_genre_same_ids|]. unfold spec_genre.
  replace (genre_tags G (filter (λ aid, is_Some (G !! aid)) ids))
    with (genre_tags G ids); [done|].
  apply set_eq. intros g. rewrite !elem_of_genre_tags.
  split; intros (aid & Haid & Hg); exists aid; (split; [|done]).
  - apply list_elem_of_filter. split; [|done].
    destruct (G !! aid); [done|]. by apply elem_of_nil in Hg.
  - by apply list_elem_of_filter in Haid as [_ ?].
Qed.

Lemma join_genres_set_of_ids_witness :
  join_genres (db_index Sample.db) ["b2"; "zz"; "a1"; "b2"]
  = join_genres (db_index Sample.db) ["a1"; "b2"; "zz"].
Proof.
  apply (join_genres_set_of_ids (db_index Sample.db)
           ["b2"; "zz"; "a1"; "b2"] ["a1"; "b2"; "zz"]).
  intros aid. rewrite !elem_of_cons, !elem_of_nil. tauto.
Defined.

Lemma genres_entry_db_index (db : gmap string (field (list string)))
    (aid : string) :
  non_empty aid → genres_entry db aid = db_index db !! aid.
Proof.
  intros Haid%truthy_non_empty. unfold genres_entry, db_index.
  by rewrite Haid, lookup_fmap.
Qed.

(** X15. With a service that answers every lookup, the genre of each row
    is the sorted, duplicate-free join of the genres the service holds
    for the track's artists (null for none), provided the records carry
    no empty id, as those of the fetcher do. *)
Theorem genres_from_service_data (sp : Spotify)
    (db : gmap string (field (list string)))
    (set_iter : gset string → list string) (tracks : list Track) :
  artists sp = Service.lookup_artists db Service.never_refused →
  (∀ s, set_iter s ≡ₚ elements s) →
  ids_non_empty tracks →
  ∃ df log,
    add_genres_if_available sp set_iter tracks = (Ok df, log)
    ∧ e_genre <$> df
      = (λ t, spec_genre (db_index db) (t_artist_ids t)) <$> tracks.
Proof.
  intros Hsp Hiter Hids.
  destruct (decide (all_artist_ids tracks = ∅)) as [Hnone|Hsome].
  - rewrite add_genres_no_ids by done. do 2 eexists. split; [done|].
    rewrite <- list_fmap_compose. apply list_fmap_ext. intros i t Ht. simpl.
    assert (t_artist_ids t = []) as ->; [|done].
    destruct (t_artist_ids t) as [|aid ids] eqn:Hlist; [done|].
    assert (aid ∈ (∅ : gset string)) as Habs; [|set_solver].
    rewrite <- Hnone. apply elem_of_all_artist_ids.
    apply list_elem_of_lookup_2 in Ht.
    unfold ids_non_empty in Hids. rewrite Forall_forall in Hids.
    specialize (Hids t Ht). rewrite Hlist in Hids.
    apply Forall_cons_1 in Hids as [Haid _]. split.
    + by apply truthy_non_empty.
    + exists t. split; [done|]. rewrite Hlist. constructor.
  - rewrite add_genres_some_ids by done.
    destruct (lookup_genres_service sp db _ Hsp (set_iter (all_artist_ids tracks)))
      as (G & Hrun & HG).
    unfold bind. rewrite Hrun. simpl. do 2 eexists. split; [done|].
    rewrite <- !list_fmap_compose. apply list_fmap_ext. intros i t Ht.
    apply list_elem_of_lookup_2 in Ht. simpl.
    rewrite <- join_genres_spec. apply join_genres_ext. intros aid Haid.
    unfold ids_non_empty in Hids. rewrite Forall_forall in Hids.
    specialize (Hids t Ht). rewrite Forall_forall in Hids.
    specialize (Hids aid Haid).
    rewrite HG, decide_True; [by apply genres_entry_db_index|].
    apply answered_never_refused. rewrite Hiter. apply elem_of_elements.
    apply elem_of_all_artist_ids. split; [by apply truthy_non_empty|eauto].
Qed.

Lemma genres_from_service_data_witness :
  ∃ df log,
    add_genres_if_available Faulty.healthy elements Sample.tracks = (Ok df, log)
    ∧ e_genre <$> df = [Some "rock"; Some "pop, rock"].
Proof.
  destruct (genres_from_service_data Faulty.healthy Sample.db elements
              Sample.tracks) as (df & log & Hrun & Hgenres).
  - reflexivity.
  - reflexivity.
  - apply expected_tracks_ids_non_empty.
  - exists df, log. split; [done|]. rewrite Hgenres. by vm_compute.
Defined.

(** ** The summary *)







(** ** A complete run *)

Lemma kept_tracks_app (l1 l2 : list item) :
  kept_tracks (l1 ++ l2) = kept_tracks l1 ++ kept_tracks l2.
Proof. apply omap_app. Qed.

(** Following the cursors collects the kept entries of all the pages,
    once each and in order, when the loop is given one unit of fuel per
    page. *)
Lemma pages_loop_delivers (sp : Spotify) (results : option page)
    (entries : list item) :
  Service.delivers sp results entries →
  forallb album_ok entries = true →
  ∃ pages log, ∀ fuel acc, (pages ≤ fuel)%nat →
    pages_loop fuel sp results acc
    = (Ok (acc ++ (expected_track <$> kept_tracks entries)), log).
Proof.
  induction 1 as [|results items Hitems Hnext
                  |results items results' rest Hitems Hnext Hfollow _ IH];
    intros Hok.
  - exists 0%nat, []. intros fuel acc _.
    destruct fuel; simpl; by rewrite app_nil_r.
  - exists 1%nat, []. intros [|fuel] acc Hfuel; [lia|].
    rewrite (single_page_run sp results items acc fuel) by done.
    by rewrite items_loop_outcome, Hok.
  - rewrite forallb_app in Hok. apply andb_true_iff in Hok as [Hok1 Hok2].
    destruct (IH Hok2) as (pages & log & Hloop).
    exists (S pages), (ApiNext (page_next results) :: log).
    intros [|fuel] acc Hfuel; [lia|]. cbn [pages_loop].
    assert (truthy results = true) as ->.
    { unfold truthy, truthy_page.
      destruct (page_next results); [done..|].
      by rewrite andb_false_r. }
    cbn [negb]. rewrite Hitems. simpl iter_of.
    cbn [mbind result_bind]. rewrite items_loop_outcome, Hok1.
    unfold lift, bind at 1. rewrite Hnext, Hfollow. unfold call, bind.
    rewrite Hloop by lia.
    rewrite kept_tracks_app, fmap_app, <- app_assoc. reflexivity.
Qed.

Lemma pages_loop_no_error (fuel : nat) (sp : Spotify)
    (results : option page) (acc : list Track) :
  Forall (λ ev, is_error ev = false) (snd (pages_loop fuel sp results acc)).
Proof.
  revert results acc. induction fuel as [|fuel IH];
    intros [results|] acc; cbn [pages_loop]; try (by constructor).
  - destruct (truthy results); by constructor.
  - destruct (truthy results); cbn [negb]; [|by constructor].
    unfold lift, bind at 1.
    destruct (_ ≫= _) as [tracks|e|]; try (by constructor).
    destruct (truthy (get (page_next results))); [|by constructor].
    unfold call, bind.
    destruct (next sp results) as [results'|e|]; try (by repeat constructor).
    specialize (IH results' tracks).
    destruct (pages_loop fuel sp results' tracks) as [r log]. simpl in *.
    by constructor.
Qed.

Lemma fetch_no_error (fuel : nat) (sp : Spotify) (playlist_id : option string) :
  Forall (λ ev, is_error ev = false)
         (snd (fetch_playlist_tracks fuel sp playlist_id)).
Proof.
  unfold fetch_playlist_tracks, call, bind.
  destruct (playlist_tracks sp playlist_id 100) as [results|e|];
    try (by repeat constructor).
  pose proof (pages_loop_no_error fuel sp results []) as Hlog.
  destruct (pages_loop fuel sp results []) as [r log]. simpl in *.
  by constructor.
Qed.

(** The enricher shows warnings only. *)
Lemma batch_body_no_error (sp : Spotify) (l : list string) (start : nat)
    (G : gmap string (list string)) :
  Forall (λ ev, is_error ev = false) (snd (batch_body sp l start G)).
Proof.
  unfold batch_body, call, try_except, bind, lift, emit, ret.
  destruct (artists sp _) as [[response|]|e|]; simpl.
  - destruct (iter_of _); by repeat constructor.
  - by repeat constructor.
  - destruct (is_SpotifyException e); by repeat constructor.
  - by repeat constructor.
Qed.

Lemma lookup_genres_no_error (sp : Spotify) (l : list string) :
  Forall (λ ev, is_error ev = false) (snd (lookup_genres sp l)).
Proof.
  unfold lookup_genres. generalize (range0 (length l) batch_size).
  generalize (∅ : gmap string (list string)).
  intros G starts. revert G.
  induction starts as [|start starts IH]; intros G; [by constructor|].
  cbn [for_in_io]. unfold bind.
  pose proof (batch_body_no_error sp l start G) as Hbody.
  destruct (batch_body sp l start G) as [[G'| |] log]; try done.
  specialize (IH G').
  destruct (for_in_io _ starts G') as [r log']. simpl in *.
  by apply Forall_app.
Qed.

Lemma add_genres_no_error (sp : Spotify)
    (set_iter : gset string → list string) (tracks : list Track) :
  Forall (λ ev, is_error ev = false)
         (snd (add_genres_if_available sp set_iter tracks)).
Proof.
  unfold add_genres_if_available.
  destruct (negb (truthy tracks)); [by constructor|].
  destruct (negb (truthy (all_artist_ids tracks))); [by constructor|].
  unfold bind.
  pose proof (lookup_genres_no_error sp (set_iter (all_artist_ids tracks)))
    as Hlog.
  destruct (lookup_genres _ _) as [[G| |] log]; simpl in *;
    by rewrite ?app_nil_r.
Qed.


Section complete_run.

Context `{TieOrder}.
Context (env : Env) (sp : Spotify).
Context (selectbox : list string → string).
Context (set_iter : gset string → list string).



(** [browse] up to the analysis: the listing, the select box and the
    line naming the selection. *)
Lemma browse_selected (fuel : nat) (playlists : list PlaylistSummary)
    (selected : PlaylistSummary) :
  fst (fetch_playlists sp) = Ok playlists →
  playlists ≠ [] →
  select_playlist playlists (selectbox (label <$> playlists)) = Ok selected →
  browse selectbox set_iter fuel sp
  = (fst (analyse set_iter fuel sp (ps_id selected)),
     selection_log playlists selected
     ++ snd (analyse set_iter fuel sp (ps_id selected))).
Proof.
  intros Hlist Hsome Hselect. unfold browse.
  pose proof (fetch_playlists_log sp) as Hlog.
  destruct (fetch_playlists sp) as [r log0]. simpl in Hlist, Hlog. subst.
  unfold bind at 1. destruct playlists as [|p playlists]; [done|].
  cbn [truthy truthy_list negb]. unfold emit, bind at 1.
  rewrite Hselect. unfold lift, bind at 1. unfold bind at 1.
  by destruct (analyse _ _ _ _) as [[| |] log].
Qed.

Lemma main_selected (fuel : nat) (user : Payload.user)
    (playlists : list PlaylistSummary) (selected : PlaylistSummary) :
  truthy (CLIENT_ID env) = true → truthy (CLIENT_SECRET env) = true →
  truthy (REDIRECT_URI env) = true →
  current_user sp = Ok (Some user) →
  fst (fetch_playlists sp) = Ok playlists →
  playlists ≠ [] →
  select_playlist playlists (selectbox (label <$> playlists)) = Ok selected →
  main env (Ok sp) selectbox set_iter fuel
  = (fst (analyse set_iter fuel sp (ps_id selected)),
     login_log user ++ selection_log playlists selected
     ++ snd (analyse set_iter fuel sp (ps_id selected))).
Proof.
  intros Hid Hsecret Huri Huser Hlist Hsome Hselect.
  rewrite (main_logged_in env sp selectbox set_iter fuel user) by done.
  by rewrite (browse_selected fuel playlists selected).
Qed.

End complete_run.

Lemma login_no_error (user : Payload.user) :
  Forall (λ ev, is_error ev = false) (login_log user).
Proof. unfold login_log. by repeat constructor. Qed.

Lemma selection_no_error (playlists : list PlaylistSummary)
    (selected : PlaylistSummary) :
  Forall (λ ev, is_error ev = false) (selection_log playlists selected).
Proof. unfold selection_log. by repeat constructor. Qed.


Lemma sample_delivers (all : list playlist) (refused : list string → option Z) :
  Service.delivers (Sample.client all refused) (Some Sample.page1)
                   Sample.entries.
Proof.
  apply (Service.delivers_more _ Sample.page1 [Item (Val Sample.solo); Item Null]
           (Some Sample.page2) [Item (Val Sample.trio)]); try done.
  by apply Service.delivers_last.
Qed.


(** ** Splitting the joined names *)

Lemma string_app_assoc (a b c : string) : (a +:+ b) +:+ c = a +:+ (b +:+ c).
Proof.
  induction a as [|x a IH]; [done|].
  change (String x ((a +:+ b) +:+ c) = String x (a +:+ (b +:+ c))).
  by rewrite IH.
Qed.

Lemma string_app_nil_r (a : string) : a +:+ "" = a.
Proof.
  induction a as [|x a IH]; [done|].
  change (String x (a +:+ "") = String x a). by rewrite IH.
Qed.

Lemma split_from_app_both (a : string) :
  (∀ cur b, split_from cur (a +:+ ", " +:+ b)
            = split_from cur a ++ split_comma b)
  ∧ (∀ c cur b, split_from cur (String c a +:+ ", " +:+ b)
                = split_from cur (String c a) ++ split_comma b).
Proof.
  induction a as [|d a [IH1 IH2]].
  - split; [done|]. intros c cur b. simpl.
    by rewrite andb_false_r.
  - split; [apply IH2|]. intros c cur b.
    change (String c (String d a) +:+ ", " +:+ b)
      with (String c (String d (a +:+ ", " +:+ b))).
    cbn [split_from].
    destruct ((c =? ",")%char && (d =? " ")%char).
    + by rewrite IH1.
    + apply (IH2 d).
Qed.

Lemma split_comma_app (a b : string) :
  split_comma (a +:+ ", " +:+ b) = split_comma a ++ split_comma b.
Proof. apply split_from_app_both. Qed.

Lemma split_from_comma_free (s cur : string) :
  comma_free s → split_from cur s = [cur +:+ s].
Proof.
  revert cur. induction s as [|c s IH]; intros cur Hfree.
  - simpl. by rewrite string_app_nil_r.
  - assert (comma_free s) as Hrest.
    { intros a b ->. by apply (Hfree (String c a) b). }
    assert (split_from cur (String c s)
            = split_from (cur +:+ String c "") s) as ->.
    { cbn [split_from]. destruct s as [|d s]; [done|].
      destruct (Ascii.eqb_spec c ","); [|done].
      destruct (Ascii.eqb_spec d " "); [|done]. subst.
      by destruct (Hfree "" s). }
    rewrite IH by done. by rewrite string_app_assoc.
Qed.

Lemma length_split_from (cur s : string) : (1 ≤ length (split_from cur s))%nat.
Proof.
  revert cur. induction s as [|c s IH]; intros cur; [simpl; lia|].
  cbn [split_from]. destruct s as [|d s]; [apply IH|].
  destruct (_ && _); [simpl; lia|apply IH].
Qed.

Lemma comma_free_split (s : string) : comma_free s ↔ split_comma s = [s].
Proof.
  split; [apply split_from_comma_free|].
  intros Hsplit a b ->. rewrite split_comma_app in Hsplit.
  apply (f_equal length) in Hsplit. rewrite length_app in Hsplit.
  pose proof (length_split_from "" a). pose proof (length_split_from "" b).
  unfold split_comma in Hsplit. simpl in Hsplit. lia.
Qed.

Lemma join_cons (name : string) (names : list string) :
  names ≠ [] → join ", " (name :: names) = name +:+ ", " +:+ join ", " names.
Proof. by destruct names. Qed.

Lemma length_concat_split (names : list string) :
  (length names ≤ length (concat (split_comma <$> names)))%nat.
Proof.
  induction names as [|name names IH]; [done|].
  rewrite fmap_cons. cbn [concat length]. rewrite length_app.
  pose proof (length_split_from "" name) as Hlen.
  fold (split_comma name) in Hlen. lia.
Qed.

Lemma concat_split_fixed (names : list string) :
  concat (split_comma <$> names) = names → Forall comma_free names.
Proof.
  induction names as [|name names IH]; [constructor|].
  rewrite fmap_cons. cbn [concat]. intros Hsame.
  pose proof (length_concat_split names) as Hle.
  destruct (split_comma name) as [|piece pieces] eqn:Hsplit.
  - pose proof (length_split_from "" name) as Hlen.
    fold (split_comma name) in Hlen. rewrite Hsplit in Hlen. simpl in Hlen. lia.
  - injection Hsame as -> Hsame.
    assert (pieces = []) as ->.
    { apply (f_equal length) in Hsame. rewrite length_app in Hsame.
      destruct pieces; [done|]. simpl in Hsame. lia. }
    constructor; [by apply comma_free_split|by apply IH].
Qed.

Lemma split_join_law (names : list string) :
  names ≠ [] →
  split_comma (join ", " names) = concat (split_comma <$> names).
Proof.
  intros Hnames. induction names as [|name names IH]; [done|].
  destruct (decide (names = [])) as [->|Hrest].
  - simpl. by rewrite app_nil_r.
  - rewrite join_cons, split_comma_app, IH by done. by rewrite fmap_cons.
Qed.

(** X18. Splitting a joined string of names on ", " gives the pieces of
    each name, in order: the names themselves when none of them contains
    ", " (join then split is a round trip), but not when one of them
    does: that name comes back cut in several. *)
Theorem split_join_names (names : list string) :
  names ≠ [] →
  split_comma (join ", " names) = concat (split_comma <$> names)
  ∧ (Forall comma_free names ↔ split_comma (join ", " names) = names).
Proof.
  intros Hnames. split; [by apply split_join_law|].
  rewrite split_join_law by done. clear Hnames.
  split; [|apply concat_split_fixed].
  induction 1 as [|name names Hname%comma_free_split _ IH]; [done|].
  rewrite fmap_cons. cbn [concat]. by rewrite Hname, IH.
Qed.

Lemma split_join_names_witness :
  split_comma (join ", " ["Ann"; "Tyler, The Creator"])
  = ["Ann"; "Tyler"; "The Creator"]
  ∧ split_comma (join ", " ["Ann"; "Bob"]) = ["Ann"; "Bob"].
Proof.
  destruct (split_join_names ["Ann"; "Tyler, The Creator"]) as [Hlaw _];
    [done|].
  destruct (split_join_names ["Ann"; "Bob"]) as [_ [Hround _]]; [done|].
  split; [by rewrite Hlaw|]. apply Hround.
  repeat constructor; by apply comma_free_split.
Defined.

(** X19. What a track adds to the artist chart: the pieces of its usable
    artist names, so a name that contains ", " counts as several artists,
    and a track without any usable name counts once under the empty
    name. *)
Theorem chart_names_of_track (track : Payload.track) (row : Track) :
  track_row track = Ok row →
  stacked [t_artist row]
  = match usable_names track with
    | [] => [""]
    | names => concat (split_comma <$> names)
    end.
Proof.
  intros Hrow.
  assert (t_artist row = join ", " (usable_names track)) as ->.
  { destruct (track_album track) eqn:Halbum.
    - rewrite track_row_expected in Hrow by (by rewrite Halbum).
      by injection Hrow as <-.
    - by rewrite track_row_null_album in Hrow.
    - rewrite track_row_expected in Hrow by (by rewrite Halbum).
      by injection Hrow as <-. }
  unfold stacked. simpl. rewrite app_nil_r.
  destruct (usable_names track) as [|name names] eqn:Hnames; [done|].
  by apply split_join_law.
Qed.

Lemma chart_names_of_track_witness :
  stacked [t_artist (expected_track Sample.trio)] = ["Ann"; "Bob"; "Guest"]
  ∧ stacked [t_artist (expected_track Pages.no_album)] = [""].
Proof.
  split.
  - by rewrite (chart_names_of_track Sample.trio (expected_track Sample.trio)).
  - pose proof (chart_names_of_track
                  (TrackObj (Val "t9") (Val "Loose") Null Missing Null Null true)
                  (expected_track Pages.no_album)) as Hnone.
    by rewrite Hnone.
Defined.

(** ** The top ten *)

Section top_ten.

Context (sort_values : list (string * nat) → list (string * nat)).
Hypothesis sort_perm : ∀ t, sort_values t ≡ₚ t.
Hypothesis sort_desc : ∀ t, StronglySorted by_count (sort_values t).

Lemma elem_of_tally (l : list string) (x : string) (c : nat) :
  (x, c) ∈ tally l ↔ x ∈ l ∧ c = occurrences x l.
Proof.
  unfold tally. rewrite list_elem_of_fmap. split.
  - intros (y & Heq & Hy). injection Heq as -> ->.
    split; [|done]. by rewrite <- elem_of_remove_dups.
  - intros [Hx ->]. exists x. split; [done|]. by apply elem_of_remove_dups.
Qed.

Lemma NoDup_tally_names (l : list string) : NoDup (tally l).*1.
Proof.
  unfold tally. rewrite <- list_fmap_compose.
  replace (fst ∘ (λ x, (x, occurrences x l)) <$> remove_dups l)
    with (remove_dups l); [apply NoDup_remove_dups|].
  induction (remove_dups l) as [|x xs IH]; [done|].
  rewrite fmap_cons. simpl. by rewrite <- IH.
Qed.

Lemma occurrences_pos (x : string) (l : list string) :
  x ∈ l → (1 ≤ occurrences x l)%nat.
Proof.
  unfold occurrences. intros Hx.
  assert (x ∈ filter (x =.) l) as Hin by (by apply list_elem_of_filter).
  destruct (filter (x =.) l); [by apply elem_of_nil in Hin|simpl; lia].
Qed.

(** X20. The series of a top-ten chart, for any way [sort_values] orders
    equal counts: it has at most ten bars, for distinct names, in
    non-increasing order of count; each count is the number of times the
    name occurs among the split pieces (at least once); and a name that
    occurs but has no bar occurs no more often than any name shown, the
    chart then being full. *)
Theorem top_counts_outcome (column : list string) :
  let names := stacked column in
  let top := top_counts sort_values column in
  (length top ≤ 10)%nat
  ∧ NoDup top.*1
  ∧ StronglySorted by_count top
  ∧ (∀ x c, (x, c) ∈ top →
       x ∈ names ∧ c = occurrences x names ∧ (1 ≤ c)%nat)
  ∧ (∀ x, x ∈ names → x ∉ top.*1 →
       length top = 10%nat
       ∧ ∀ y c, (y, c) ∈ top → (occurrences x names ≤ c)%nat).
Proof.
  intros names top. unfold top, top_counts. fold names.
  set (sorted_counts := sort_values (tally names)).
  assert (∀ x c, (x, c) ∈ sorted_counts
                 ↔ x ∈ names ∧ c = occurrences x names) as Hsorted.
  { intros x c. unfold sorted_counts. rewrite (sort_perm (tally names)).
    apply elem_of_tally. }
  pose proof (sort_desc (tally names)) as Hdesc. fold sorted_counts in Hdesc.
  rewrite <- (take_drop 10 sorted_counts) in Hdesc.
  apply StronglySorted_app in Hdesc as (Hcut & Htop & _).
  split; [rewrite length_take; lia|]. split.
  { rewrite fmap_take. eapply sublist_NoDup; [|apply sublist_take].
    unfold sorted_counts. rewrite (sort_perm (tally names)).
    apply NoDup_tally_names. }
  split; [done|]. split.
  { intros x c Hin%subseteq_take. apply Hsorted in Hin as [Hx ->].
    split; [done|]. split; [done|]. by apply occurrences_pos. }
  intros x Hx Hnot.
  assert ((x, occurrences x names) ∈ drop 10 sorted_counts) as Hdropped.
  { assert ((x, occurrences x names) ∈ sorted_counts) as Hin
      by (by apply Hsorted).
    rewrite <- (take_drop 10 sorted_counts) in Hin.
    apply elem_of_app in Hin as [Hin|Hin]; [|done].
    destruct Hnot. apply list_elem_of_fmap. by exists (x, occurrences x names). }
  split.
  - rewrite length_take. apply Nat.min_l.
    destruct (decide (10 ≤ length sorted_counts)%nat); [done|].
    rewrite drop_ge in Hdropped by lia. by apply elem_of_nil in Hdropped.
  - intros y c Hy. apply (Hcut (y, c) (x, occurrences x names) Hy Hdropped).
Qed.

Lemma genre_chart_cases (df : list EnrichedTrack) :
  genre_chart sort_values df
  = if decide (Forall (λ row, e_genre row = None) df)
    then StInfoBox "No genre information available for this playlist"
    else BarChart (top_genres sort_values df).
Proof.
  unfold genre_chart.
  assert (omap e_genre df = [] ↔ Forall (λ row, e_genre row = None) df)
    as Hnone.
  { induction df as [|row df IH]; [by split; [constructor|]|].
    cbn [omap list_omap]. rewrite Forall_cons, <- IH.
    destruct (e_genre row); [split; [done|by intros [? _]]|tauto]. }
  destruct (omap e_genre df) as [|g gs] eqn:Hgenres; case_decide; try done.
  - by destruct H; apply Hnone.
  - by apply Hnone in H.
Qed.

End top_ten.

Global Instance by_count_total : Total by_count.
Proof. intros a b. unfold by_count. lia. Qed.

Global Instance by_count_trans : Transitive by_count.
Proof. intros a b c. unfold by_count. lia. Qed.

Lemma sort_by_count_perm (t : list (string * nat)) : sort_by_count t ≡ₚ t.
Proof. apply merge_sort_Permutation. Qed.

Lemma sort_by_count_desc (t : list (string * nat)) :
  StronglySorted by_count (sort_by_count t).
Proof. apply StronglySorted_merge_sort; apply _. Qed.

Lemma top_counts_outcome_witness :
  let column := ["Ann, Bob"; "Bob"; ""; "Cy, Bob, Ann"] in
  let top := top_counts sort_by_count column in
  (length top ≤ 10)%nat
  ∧ NoDup top.*1
  ∧ StronglySorted by_count top
  ∧ (∀ x c, (x, c) ∈ top →
       x ∈ stacked column ∧ c = occurrences x (stacked column) ∧ (1 ≤ c)%nat)
  ∧ (∀ x, x ∈ stacked column → x ∉ top.*1 →
       length top = 10%nat
       ∧ ∀ y c, (y, c) ∈ top → (occurrences x (stacked column) ≤ c)%nat).
Proof.
  apply (top_counts_outcome sort_by_count sort_by_count_perm
           sort_by_count_desc ["Ann, Bob"; "Bob"; ""; "Cy, Bob, Ann"]).
Defined.

(** X21. When the service rejects every artist lookup, the enricher still
    returns its rows, all without genre, and the genre chart gives way to
    the message "No genre information available for this playlist". *)
Theorem no_genre_chart_when_all_refused
    (sort_values : list (string * nat) → list (string * nat))
    (sp : Spotify) (db : gmap string (field (list string)))
    (refused : list string → option Z)
    (set_iter : gset string → list string) (tracks : list Track) :
  artists sp = Service.lookup_artists db refused →
  (∀ batch, is_Some (refused batch)) →
  ∃ df log,
    add_genres_if_available sp set_iter tracks = (Ok df, log)
    ∧ Forall2 same_track tracks df
    ∧ Forall (λ row, e_genre row = None) df
    ∧ genre_chart sort_values df
      = StInfoBox "No genre information available for this playlist".
Proof.
  intros Hsp Hrefused.
  assert (∃ df log, add_genres_if_available sp set_iter tracks = (Ok df, log)
            ∧ Forall2 same_track tracks df
            ∧ Forall (λ row, e_genre row = None) df)
    as (df & log & Hrun & Hsame & Hnone).
  { destruct (decide (all_artist_ids tracks = ∅)) as [Hids|Hids].
    - rewrite add_genres_no_ids by done. do 2 eexists. split; [done|].
      split; [apply same_track_frame|]. by apply Forall_fmap, Forall_forall.
    - rewrite add_genres_some_ids by done.
      destruct (lookup_genres_service sp db _ Hsp
                  (set_iter (all_artist_ids tracks))) as (G & Hlookup & HG).
      unfold bind. rewrite Hlookup. simpl. do 2 eexists. split; [done|].
      split; [apply same_track_genres|].
      apply Forall_fmap, Forall_fmap, Forall_forall. intros t _. simpl.
      rewrite <- (join_genres_empty (t_artist_ids t)).
      apply join_genres_ext. intros aid _. rewrite HG, lookup_empty.
      rewrite decide_False; [done|]. unfold answered.
      rewrite Exists_exists. intros (batch & _ & _ & Hanswered).
      destruct (Hrefused batch) as [status Hstatus]. congruence. }
  exists df, log. split; [done|]. split; [done|]. split; [done|].
  rewrite genre_chart_cases. by rewrite decide_True.
Qed.

Lemma no_genre_chart_when_all_refused_witness :
  ∃ df log,
    add_genres_if_available (Sample.client Sample.listing (λ _, Some 429))
                            elements Sample.tracks = (Ok df, log)
    ∧ Forall2 same_track Sample.tracks df
    ∧ Forall (λ row, e_genre row = None) df
    ∧ genre_chart sort_by_count df
      = StInfoBox "No genre information available for this playlist".
Proof.
  apply (no_genre_chart_when_all_refused sort_by_count
           (Sample.client Sample.listing (λ _, Some 429)) Sample.db
           (λ _, Some 429) elements Sample.tracks).
  - reflexivity.
  - intros batch. by eexists.
Defined.
(** * The fetchers and the failures of a run *)

(** ** One row per kept track *)

Lemma same_track_columns (tracks : list Track) (df : list EnrichedTrack) :
  Forall2 same_track tracks df → Forall2 same_columns tracks df.
Proof.
  intros Hsame. eapply Forall2_impl; [exact Hsame|].
  unfold same_track, same_columns. tauto.
Qed.

(** Whatever the service does, a frame returned by the enricher has the
    rows of its tracks, in their order. *)
Lemma add_genres_rows (sp : Spotify) (set_iter : gset string → list string)
    (tracks : list Track) (df : list EnrichedTrack) (log : list event) :
  add_genres_if_available sp set_iter tracks = (Ok df, log) →
  Forall2 same_track tracks df.
Proof.
  unfold add_genres_if_available.
  destruct (negb (truthy tracks));
    [intros [= <- _]; apply same_track_frame|].
  destruct (negb (truthy (all_artist_ids tracks)));
    [intros [= <- _]; apply same_track_frame|].
  unfold bind.
  destruct (lookup_genres _ _) as [[G| |] log']; simpl; intros [= <- _].
  apply same_track_genres.
Qed.

(** C3, as the code has it. For a playlist whose entries the service
    delivers page by page, none of the kept track payloads storing null
    under [album], the fetcher (given fuel for the pages) returns exactly
    the records of the entries whose track payload is neither null nor
    absent nor an empty object, in the playlist's order: the other
    entries are skipped and nothing is repeated or lost at a page
    boundary. With a service that answers or rejects the artist lookups
    the enricher then returns one row per record, in the same order; and
    whatever the service does, a frame the enricher returns has one row
    per track it was given, in the same order. *)
Theorem one_row_per_kept_track (sp : Spotify)
    (db : gmap string (field (list string)))
    (refused : list string → option Z)
    (set_iter : gset string → list string)
    (playlist_id : option string) (results : option page)
    (entries : list item) :
  playlist_tracks sp playlist_id 100 = Ok results →
  Service.delivers sp results entries →
  forallb album_ok entries = true →
  artists sp = Service.lookup_artists db refused →
  (∃ pages, ∀ fuel, (pages ≤ fuel)%nat →
     ∃ tracks log df log',
       fetch_playlist_tracks fuel sp playlist_id = (Ok tracks, log)
       ∧ tracks = expected_track <$> kept_tracks entries
       ∧ add_genres_if_available sp set_iter tracks = (Ok df, log')
       ∧ Forall2 same_columns tracks df
       ∧ length df = length (kept_tracks entries))
  ∧ ∀ sp' tracks df log,
      add_genres_if_available sp' set_iter tracks = (Ok df, log) →
      Forall2 same_columns tracks df ∧ length df = length tracks.
Proof.
  intros Hfirst Hpages Hok Hsp. split.
  - destruct (pages_loop_delivers sp results entries Hpages Hok)
      as (pages & log & Hloop).
    exists pages. intros fuel Hfuel.
    destruct (add_genres_service_rows sp db refused set_iter
                (expected_track <$> kept_tracks entries) Hsp)
      as (df & log' & Hdf & Hsame).
    exists (expected_track <$> kept_tracks entries),
           (ApiPlaylistTracks playlist_id 100 :: log), df, log'.
    split.
    { unfold fetch_playlist_tracks, call, bind. rewrite Hfirst.
      by rewrite (Hloop fuel [] Hfuel). }
    split; [done|]. split; [done|].
    split; [by apply same_track_columns|].
    by rewrite <- (Forall2_length _ _ _ Hsame), length_fmap.
  - intros sp' tracks df log Hrun.
    pose proof (add_genres_rows sp' set_iter tracks df log Hrun) as Hsame.
    split; [by apply same_track_columns|].
    symmetry. by eapply Forall2_length.
Qed.

Lemma one_row_per_kept_track_witness :
  let sp := Sample.client Sample.listing Service.never_refused in
  ∃ pages, ∀ fuel, (pages ≤ fuel)%nat →
    ∃ tracks log df log',
      fetch_playlist_tracks fuel sp (Some "p1") = (Ok tracks, log)
      ∧ tracks = expected_track <$> kept_tracks Sample.entries
      ∧ add_genres_if_available sp elements tracks = (Ok df, log')
      ∧ Forall2 same_columns tracks df
      ∧ length df = length (kept_tracks Sample.entries).
Proof.
  apply (one_row_per_kept_track
           (Sample.client Sample.listing Service.never_refused)
           Sample.db Service.never_refused elements (Some "p1")
           (Some Sample.page1) Sample.entries).
  - reflexivity.
  - apply sample_delivers.
  - reflexivity.
  - reflexivity.
Defined.

(** C3 as stated fails: a playlist of two entries, the first with an
    empty track object, the second with a full one. Both payloads are
    non-null, and the pipeline produces one row. *)
Lemma empty_track_payload_skipped :
  let entries := [Item (Val Pages.hollow); Item (Val Sample.solo)] in
  let sp := Faulty.with_tracks (Ok (Some (Pages.only entries)))
                               Faulty.healthy in
  ∃ tracks log df log',
    fetch_playlist_tracks 1 sp (Some "p1") = (Ok tracks, log)
    ∧ add_genres_if_available sp elements tracks = (Ok df, log')
    ∧ length (present_tracks entries) = 2%nat
    ∧ length df = 1%nat.
Proof. do 4 eexists. repeat split; by vm_compute. Qed.

(** ** The listing of the playlists *)

(** C6. The lister asks for 50 playlists in one call and maps what it
    gets; the default of [item.get("tracks", {})] covers a missing key
    only. When an element of the listing stores null under [tracks], the
    mapping raises [AttributeError], and no summary is returned, not
    even those of the elements before it. *)
Theorem null_tracks_object_raises (sp : Spotify) (results : playlists_page)
    (items : list playlist) :
  current_user_playlists sp 50 = Ok (Some results) →
  playlists_items results = Val items →
  (∃ p, p ∈ items ∧ playlist_tracks_ref p = Null) →
  fetch_playlists sp
  = (Raise none_has_no_get, [ApiCurrentUserPlaylists 50])
  ∧ exn_cls none_has_no_get = AttributeError.
Proof.
  intros Hlist Hitems (p & Hin & Hnull). split; [|done].
  unfold fetch_playlists, call, bind, lift. rewrite Hlist.
  cbn [obj_of mbind result_bind]. rewrite Hitems. simpl.
  rewrite summaries_loop_outcome.
  assert (forallb tracks_ref_not_null items = false) as ->; [|done].
  apply not_true_is_false. rewrite forallb_forall. intros Hall.
  apply list_elem_of_In in Hin. specialize (Hall p Hin).
  unfold tracks_ref_not_null in Hall. by rewrite Hnull in Hall.
Qed.

Lemma null_tracks_object_raises_witness :
  let listing := [Playlist (Val "p1") (Val "Mix") (Val (TracksRef (Val 3)));
                  Playlist (Val "p2") (Val "Old") Null] in
  fetch_playlists (Sample.client listing Service.never_refused)
  = (Raise none_has_no_get, [ApiCurrentUserPlaylists 50])
  ∧ exn_cls none_has_no_get = AttributeError.
Proof.
  apply (null_tracks_object_raises
           (Sample.client
              [Playlist (Val "p1") (Val "Mix") (Val (TracksRef (Val 3)));
               Playlist (Val "p2") (Val "Old") Null]
              Service.never_refused)
           (PlaylistsPage
              (Val [Playlist (Val "p1") (Val "Mix") (Val (TracksRef (Val 3)));
                    Playlist (Val "p2") (Val "Old") Null]))
           [Playlist (Val "p1") (Val "Mix") (Val (TracksRef (Val 3)));
            Playlist (Val "p2") (Val "Old") Null]).
  - reflexivity.
  - reflexivity.
  - exists (Playlist (Val "p2") (Val "Old") Null).
    split; [|reflexivity]. apply list_elem_of_further, list_elem_of_here.
Defined.

(** With such a listing the exception leaves [main]: the script shows
    neither the playlists nor a message of its own. *)
Example null_tracks_object_outcome :
  main Sample.env
       (Ok (Sample.client
              [Playlist (Val "p1") (Val "Mix") (Val (TracksRef (Val 3)));
               Playlist (Val "p2") (Val "Old") Null]
              Service.never_refused))
       Sample.pick_last elements 0
  = (Raise none_has_no_get,
     login_log (User (Val "me")) ++ [ApiCurrentUserPlaylists 50]).
Proof. reflexivity. Qed.

(** ** Failures during the analysis *)

Section failures.

Context `{TieOrder}.
Context (env : Env) (sp : Spotify).
Context (selectbox : list string → string).
Context (set_iter : gset string → list string) (fuel : nat).

(** [analyse] has no handler: what the fetcher raises comes out as is,
    and so does what the enricher raises. *)
Lemma analyse_fetch_raises (playlist_id : option string) (e : exn)
    (log : list event) :
  fetch_playlist_tracks fuel sp playlist_id = (Raise e, log) →
  analyse set_iter fuel sp playlist_id = (Raise e, log).
Proof. unfold analyse, bind. by intros ->. Qed.

Lemma analyse_enricher_raises (playlist_id : option string)
    (tracks : list Track) (e : exn) (log log' : list event) :
  fetch_playlist_tracks fuel sp playlist_id = (Ok tracks, log) →
  tracks ≠ [] →
  add_genres_if_available sp set_iter tracks = (Raise e, log') →
  analyse set_iter fuel sp playlist_id = (Raise e, log ++ log').
Proof.
  intros Hfetch Hsome Hrun. unfold analyse. unfold bind at 1.
  rewrite Hfetch. destruct tracks as [|t tracks]; [done|].
  cbn [truthy truthy_list negb]. unfold bind. by rewrite Hrun.
Qed.

End failures.

(** C5, as the code has it. The analysis of a playlist has no handler:
    once the user is logged in and has selected a listed playlist, an
    exception raised by the track fetcher (on the first page or on a
    later one) or by the genre enricher comes out of the analysis and
    out of [main] unchanged, after a log that holds no error message. *)
Theorem analysis_failure_propagates `{TieOrder} (env : Env) (sp : Spotify)
    (selectbox : list string → string)
    (set_iter : gset string → list string) (fuel : nat)
    (user : Payload.user) (playlists : list PlaylistSummary)
    (selected : PlaylistSummary) :
  truthy (CLIENT_ID env) = true → truthy (CLIENT_SECRET env) = true →
  truthy (REDIRECT_URI env) = true →
  current_user sp = Ok (Some user) →
  fst (fetch_playlists sp) = Ok playlists →
  playlists ≠ [] →
  select_playlist playlists (selectbox (label <$> playlists)) = Ok selected →
  (∀ e log,
     fetch_playlist_tracks fuel sp (ps_id selected) = (Raise e, log) →
     analyse set_iter fuel sp (ps_id selected) = (Raise e, log)
     ∧ main env (Ok sp) selectbox set_iter fuel
       = (Raise e, login_log user ++ selection_log playlists selected ++ log)
     ∧ Forall (λ ev, is_error ev = false)
              (login_log user ++ selection_log playlists selected ++ log))
  ∧ (∀ tracks log e log',
       fetch_playlist_tracks fuel sp (ps_id selected) = (Ok tracks, log) →
       tracks ≠ [] →
       add_genres_if_available sp set_iter tracks = (Raise e, log') →
       analyse set_iter fuel sp (ps_id selected) = (Raise e, log ++ log')
       ∧ main env (Ok sp) selectbox set_iter fuel
         = (Raise e,
            login_log user ++ selection_log playlists selected
            ++ log ++ log')
       ∧ Forall (λ ev, is_error ev = false)
                (login_log user ++ selection_log playlists selected
                 ++ log ++ log')).
Proof.
  intros Hid Hsecret Huri Huser Hlist Hsome Hselect.
  pose proof (main_selected env sp selectbox set_iter fuel user playlists
                selected Hid Hsecret Huri Huser Hlist Hsome Hselect) as Hmain.
  split.
  - intros e log Hfetch.
    pose proof (analyse_fetch_raises sp set_iter fuel _ e log Hfetch) as Hrun.
    rewrite Hmain, Hrun. split; [done|]. split; [done|].
    pose proof (fetch_no_error fuel sp (ps_id selected)) as Hlog.
    rewrite Hfetch in Hlog.
    repeat (apply Forall_app; split);
      auto using login_no_error, selection_no_error.
  - intros tracks log e log' Hfetch Htracks Hgenres.
    pose proof (analyse_enricher_raises sp set_iter fuel _ tracks e log log'
                  Hfetch Htracks Hgenres) as Hrun.
    rewrite Hmain, Hrun. split; [done|]. split; [done|].
    pose proof (fetch_no_error fuel sp (ps_id selected)) as Hlog.
    pose proof (add_genres_no_error sp set_iter tracks) as Hlog'.
    rewrite Hfetch in Hlog. rewrite Hgenres in Hlog'.
    repeat (apply Forall_app; split);
      auto using login_no_error, selection_no_error.
Qed.

Lemma analysis_failure_propagates_witness :
  let bare := expected_summary (Playlist (Val "p3") (Val "Bare") Missing) in
  let prefix := login_log (User (Val "me"))
                ++ selection_log (expected_summary <$> Sample.listing) bare in
  main Sample.env
       (Ok (Faulty.with_next (Raise Faulty.timeout) Faulty.healthy))
       Sample.pick_last elements 2
  = (Raise Faulty.timeout,
     prefix ++ [ApiPlaylistTracks (ps_id bare) 100; ApiNext (Val "page2")])
  ∧ main Sample.env
         (Ok (Faulty.with_artists (Raise Faulty.timeout) Faulty.healthy))
         Sample.pick_last elements 2
    = (Raise Faulty.timeout,
       prefix
       ++ [ApiPlaylistTracks (ps_id bare) 100; ApiNext (Val "page2")]
       ++ [ApiArtists (elements (all_artist_ids Sample.tracks))]).
Proof.
  split.
  - destruct (analysis_failure_propagates Sample.env
                (Faulty.with_next (Raise Faulty.timeout) Faulty.healthy)
                Sample.pick_last elements 2 (User (Val "me"))
                (expected_summary <$> Sample.listing)
                (expected_summary (Playlist (Val "p3") (Val "Bare") Missing)))
      as [Hfetch _];
      [reflexivity|reflexivity|reflexivity|reflexivity|reflexivity|done
      |reflexivity|].
    destruct (Hfetch Faulty.timeout
                [ApiPlaylistTracks (Some "p3") 100; ApiNext (Val "page2")])
      as (_ & Hmain & _); [reflexivity|].
    exact Hmain.
  - destruct (analysis_failure_propagates Sample.env
                (Faulty.with_artists (Raise Faulty.timeout) Faulty.healthy)
                Sample.pick_last elements 2 (User (Val "me"))
                (expected_summary <$> Sample.listing)
                (expected_summary (Playlist (Val "p3") (Val "Bare") Missing)))
      as [_ Hgenres];
      [reflexivity|reflexivity|reflexivity|reflexivity|reflexivity|done
      |reflexivity|].
    destruct (Hgenres Sample.tracks
                [ApiPlaylistTracks (Some "p3") 100; ApiNext (Val "page2")]
                Faulty.timeout
                [ApiArtists (elements (all_artist_ids Sample.tracks))])
      as (_ & Hmain & _); [reflexivity|done|reflexivity|].
    exact Hmain.
Defined.

(** C5 as stated fails: the service answers the track listing with an
    HTTP error, and the exception leaves [main] uncaught, without any
    error message from the script. *)
Lemma track_fetch_failure_uncaught :
  ∃ log, main Sample.env (Ok (Sample.broken Sample.listing)) Sample.pick_last
              elements 5
         = (Raise Sample.gateway_error, log)
    ∧ is_Exception Sample.gateway_error = true
    ∧ existsb is_error log = false.
Proof. eexists. split; [by vm_compute|]. split; by vm_compute. Qed.
